(** * The session-multiplexed transport layer of the RememberBook MCP server

    Shallow embedding of the [app.post("/mcp", ...)] handler of the MCP
    server (the Express route at the end of the server module) together
    with the module-level [server] and [sessions] objects it uses.

    The handler is an [async] function.  JavaScript runs each stretch of
    code between two [await]s to completion before anything else runs, so
    the handler is cut at its [await]s into atomic segments and the event
    loop is an arbitrary interleaving of those segments with the [close]
    events of the responses.  The third-party objects (the protocol engine
    [McpServer], the [StreamableHTTPServerTransport], the Express response)
    are opaque: every call the handler makes on them is recorded, in order,
    in a trace, and the outcome of every awaited promise is an input. *)

From stdpp Require Import gmap strings list fin_maps pretty.

(** ** Data *)

Definition TransportId := nat.
Definition ReqId := nat.
Definition EngineId := nat.

(** [const server = new McpServer({...})]: evaluated once, when the module
    is loaded.  It is the only engine object the module ever creates. *)
Definition server : EngineId := 0.

(** [type SessionRecord = { transport: StreamableHTTPServerTransport }] *)
Record SessionRecord := { transport : TransportId }.

Global Instance SessionRecord_eq_dec : EqDecision SessionRecord.
Proof. solve_decision. Defined.

(** The two closures passed to [res.on("close", ...)]. *)
Inductive Listener :=
  | CloseTransport (t : TransportId)
      (* () => { transport.close(); } *)
  | CloseAndDelete (t : TransportId) (sessionId : string).
      (* () => { transport.close(); sessions.delete(sessionId); } *)

Global Instance Listener_eq_dec : EqDecision Listener.
Proof. solve_decision. Defined.

(** Calls made by the handler on its collaborators, as they are issued. *)
Inductive Op :=
  | NewTransport (t : TransportId) (sessionIdGenerator : option string)
      (* new StreamableHTTPServerTransport({ sessionIdGenerator, ... }) *)
  | SessionsSet (sessionId : string) (t : TransportId)
      (* sessions.set(sessionId, { transport }) *)
  | SessionsDelete (sessionId : string) (existed : bool)
      (* sessions.delete(sessionId), with the boolean Map.delete returns *)
  | ServerConnect (e : EngineId) (t : TransportId)
      (* server.connect(transport) *)
  | ResOn (r : ReqId) (l : Listener)
      (* res.on("close", listener) *)
  | HandleRequest (t : TransportId) (r : ReqId)
      (* transport.handleRequest(req, res, req.body) *)
  | TransportClose (t : TransportId).
      (* transport.close() *)

Global Instance Op_eq_dec : EqDecision Op.
Proof. solve_decision. Defined.

(** Where an activation of the handler is suspended. *)
Inductive Pc :=
  | AwaitConnectStateless (t : TransportId)
      (* at [await server.connect(transport)] of the stateless branch *)
  | AwaitConnectStateful (session : SessionRecord) (sessionId : string)
      (* at [await server.connect(transport)] of the creation branch *)
  | AwaitHandleRequest (t : TransportId)
      (* at [await transport.handleRequest(...)] *)
  | Returned
  | Rejected.

(** One activation: its suspension point and the listeners registered on
    its response object. *)
Record Req := { pc : Pc; on_close : list Listener }.

Record State := {
  sessions : gmap string SessionRecord;   (* const sessions = new Map() *)
  next_transport : TransportId;           (* identity of the next object *)
  reqs : list Req;
  trace : list Op
}.

Definition init : State :=
  {| sessions := ∅; next_transport := 0; reqs := []; trace := [] |}.

(** What the event loop can deliver. *)
Inductive Event :=
  | Post (sessionId : option string)
      (* a POST /mcp reaches the handler; [req.query.sessionId] *)
  | ConnectSettled (r : ReqId) (ok : bool)
      (* the promise of [server.connect] resolves or rejects *)
  | HandleRequestSettled (r : ReqId) (ok : bool)
      (* the promise of [transport.handleRequest] resolves or rejects *)
  | ResClose (r : ReqId).
      (* the response of activation [r] emits "close" *)

(** ** The handler *)

(** [!sessionId] for [sessionId : string | undefined]. *)
Definition js_not (sessionId : option string) : bool :=
  match sessionId with
  | None => true
  | Some s => bool_decide (s = "")
  end.

Definition emit (ops : list Op) (st : State) : State :=
  {| sessions := sessions st; next_transport := next_transport st;
     reqs := reqs st; trace := trace st ++ ops |}.

Definition set_req (r : ReqId) (rq : Req) (st : State) : State :=
  {| sessions := sessions st; next_transport := next_transport st;
     reqs := <[r := rq]> (reqs st); trace := trace st |}.

(** First segment: from the entry of the handler to its first [await]. *)
Definition post (q : option string) (st : State) : State :=
  let r := length (reqs st) in
  if js_not q then
    let t := next_transport st in
    {| sessions := sessions st;
       next_transport := S t;
       reqs := reqs st ++ [{| pc := AwaitConnectStateless t;
                              on_close := [CloseTransport t] |}];
       trace := trace st ++ [NewTransport t None;
                             ResOn r (CloseTransport t);
                             ServerConnect server t] |}
  else
    let sessionId := default "" q in
    match sessions st !! sessionId with
    | None =>
        let t := next_transport st in
        let session := {| transport := t |} in
        {| sessions := <[sessionId := session]> (sessions st);
           next_transport := S t;
           reqs := reqs st ++ [{| pc := AwaitConnectStateful session sessionId;
                                  on_close := [] |}];
           trace := trace st ++ [NewTransport t (Some sessionId);
                                 SessionsSet sessionId t;
                                 ServerConnect server t] |}
    | Some session =>
        {| sessions := sessions st;
           next_transport := next_transport st;
           reqs := reqs st ++ [{| pc := AwaitHandleRequest (transport session);
                                  on_close := [] |}];
           trace := trace st ++ [HandleRequest (transport session) r] |}
    end.

(** Second segment: what follows [await server.connect(transport)]. *)
Definition connect_settled (r : ReqId) (ok : bool) (st : State) : State :=
  match reqs st !! r with
  | Some rq =>
      match pc rq with
      | AwaitConnectStateless t =>
          if ok then
            set_req r {| pc := AwaitHandleRequest t; on_close := on_close rq |}
              (emit [HandleRequest t r] st)
          else set_req r {| pc := Rejected; on_close := on_close rq |} st
      | AwaitConnectStateful session sessionId =>
          if ok then
            let l := CloseAndDelete (transport session) sessionId in
            set_req r {| pc := AwaitHandleRequest (transport session);
                         on_close := on_close rq ++ [l] |}
              (emit [ResOn r l; HandleRequest (transport session) r] st)
          else set_req r {| pc := Rejected; on_close := on_close rq |} st
      | _ => st
      end
  | None => st
  end.

(** Last segment: what follows [await transport.handleRequest(...)]. *)
Definition handle_request_settled (r : ReqId) (ok : bool) (st : State) : State :=
  match reqs st !! r with
  | Some rq =>
      match pc rq with
      | AwaitHandleRequest _ =>
          set_req r {| pc := if ok then Returned else Rejected;
                       on_close := on_close rq |} st
      | _ => st
      end
  | None => st
  end.

(** The body of a listener. *)
Definition run_listener (st : State) (l : Listener) : State :=
  match l with
  | CloseTransport t => emit [TransportClose t] st
  | CloseAndDelete t sessionId =>
      {| sessions := delete sessionId (sessions st);
         next_transport := next_transport st;
         reqs := reqs st;
         trace := trace st ++
           [TransportClose t;
            SessionsDelete sessionId (bool_decide (is_Some (sessions st !! sessionId)))] |}
  end.

(** [res.emit("close")]: the listeners run in registration order. *)
Definition res_close (r : ReqId) (st : State) : State :=
  match reqs st !! r with
  | Some rq => foldl run_listener st (on_close rq)
  | None => st
  end.

Definition step (st : State) (ev : Event) : State :=
  match ev with
  | Post q => post q st
  | ConnectSettled r ok => connect_settled r ok st
  | HandleRequestSettled r ok => handle_request_settled r ok st
  | ResClose r => res_close r st
  end.

Definition run (sch : list Event) (st : State) : State := foldl step st sch.

(** ** Observations on a trace *)

Definition is_close_of (t : TransportId) (o : Op) : bool :=
  match o with TransportClose t' => bool_decide (t' = t) | _ => false end.

Definition is_creation_for (s : string) (o : Op) : bool :=
  match o with NewTransport _ (Some s') => bool_decide (s' = s) | _ => false end.

Definition is_set_of (s : string) (o : Op) : bool :=
  match o with SessionsSet s' _ => bool_decide (s' = s) | _ => false end.

Definition is_removal_of (s : string) (o : Op) : bool :=
  match o with SessionsDelete s' true => bool_decide (s' = s) | _ => false end.

Fixpoint count (p : Op → bool) (tr : list Op) : nat :=
  match tr with
  | [] => 0
  | o :: tr' => (if p o then 1 else 0) + count p tr'
  end.

(** Number of [transport.close()] calls made on transport [t]. *)
Definition close_calls (t : TransportId) (tr : list Op) : nat :=
  count (is_close_of t) tr.

(** Number of transports created for session id [s]. *)
Definition created_for (s : string) (tr : list Op) : nat :=
  count (is_creation_for s) tr.

Definition is_res_close (ev : Event) : bool :=
  match ev with ResClose _ => true | _ => false end.

Definition is_stateless_or_settle (ev : Event) : bool :=
  match ev with Post q => js_not q | _ => true end.

Definition in_registry (s : string) (st : State) : nat :=
  match sessions st !! s with Some _ => 1 | None => 0 end.

(** ** Predicates used by the invariants *)

(** The session ids a list of listeners deletes, in order. *)
Definition deleted_ids (ls : list Listener) : list string :=
  omap (λ l, match l with CloseAndDelete _ s => Some s | _ => None end) ls.

(** The only [res.on] that is not in the first segment is the one of the
    creation branch, after [await server.connect]. *)
Definition registration_pending (rq : Req) : bool :=
  match pc rq with AwaitConnectStateful _ _ => true | _ => false end.

Definition listeners_fixed (r : ReqId) (ls : list Listener) (st : State) : Prop :=
  ∃ rq, reqs st !! r = Some rq ∧ on_close rq = ls ∧ registration_pending rq = false.

(** Registry balance: see the section of that name below. *)
Definition balanced (st : State) : Prop :=
  ∀ s, created_for s (trace st) =
       count (is_removal_of s) (trace st) + in_registry s st
     ∧ count (is_set_of s) (trace st) = created_for s (trace st).

(** Without a [close] event nothing is ever deleted. *)
Definition no_delete (st : State) : Prop :=
  ∀ s, count (is_removal_of s) (trace st) = 0.

(** Bounds on the object identities a state mentions. *)
Definition op_ok (n : nat) (o : Op) : Prop :=
  match o with
  | NewTransport t _ | SessionsSet _ t | HandleRequest t _ | TransportClose t => t < n
  | ServerConnect e t => e = server ∧ t < n
  | ResOn _ (CloseTransport t) | ResOn _ (CloseAndDelete t _) => t < n
  | SessionsDelete _ _ => True
  end.

Definition listener_ok (n : nat) (l : Listener) : Prop :=
  match l with CloseTransport t | CloseAndDelete t _ => t < n end.

Definition pc_ok (n : nat) (p : Pc) : Prop :=
  match p with
  | AwaitConnectStateless t | AwaitHandleRequest t => t < n
  | AwaitConnectStateful session _ => transport session < n
  | Returned | Rejected => True
  end.

Definition req_ok (n : nat) (rq : Req) : Prop :=
  pc_ok n (pc rq) ∧ Forall (listener_ok n) (on_close rq).

Record wf (st : State) : Prop := {
  wf_sessions : map_Forall (λ _ session, transport session < next_transport st) (sessions st);
  wf_reqs : Forall (req_ok (next_transport st)) (reqs st);
  wf_trace : Forall (op_ok (next_transport st)) (trace st)
}.

(** The engine a transport was connected to, if any. *)
Fixpoint engine_of (t : TransportId) (tr : list Op) : option EngineId :=
  match tr with
  | [] => None
  | ServerConnect e t' :: tr' => if bool_decide (t' = t) then Some e else engine_of t tr'
  | _ :: tr' => engine_of t tr'
  end.

(** ** Further observations and invariants of the handler *)

Definition is_new_of (t : TransportId) (o : Op) : bool :=
  match o with NewTransport t' _ => bool_decide (t' = t) | _ => false end.

Definition is_connect_of (t : TransportId) (o : Op) : bool :=
  match o with ServerConnect _ t' => bool_decide (t' = t) | _ => false end.

Definition is_handle_of (r : ReqId) (o : Op) : bool :=
  match o with HandleRequest _ r' => bool_decide (r' = r) | _ => false end.

Definition is_res_on_of (r : ReqId) (o : Op) : bool :=
  match o with ResOn r' _ => bool_decide (r' = r) | _ => false end.

(** Calls a listener makes: they create nothing and drive nothing. *)
Definition is_teardown (o : Op) : bool :=
  match o with TransportClose _ | SessionsDelete _ _ => true | _ => false end.

(** The event settles the [server.connect] promise of activation [r]. *)
Definition is_connect_settled_of (r : ReqId) (ev : Event) : bool :=
  match ev with ConnectSettled r' _ => bool_decide (r' = r) | _ => false end.

(** The event settles one of the promises activation [r] awaits. *)
Definition settles (r : ReqId) (ev : Event) : bool :=
  match ev with
  | ConnectSettled r' _ | HandleRequestSettled r' _ => bool_decide (r' = r)
  | _ => false
  end.

(** Neither a [close] event nor the settling of [r]'s connect. *)
Definition quiet_for (r : ReqId) (ev : Event) : bool :=
  negb (is_res_close ev) && negb (is_connect_settled_of r ev).

(** ** The response of a request

    The handler hands the request's own [req] and [res] to
    [transport.handleRequest] and makes no other call on [res] than
    [res.on]: what the client is answered is what the transport writes
    while it is driven.  That is an input here: the status the transport
    wrote on [res], if it wrote, and whether its promise resolved. *)
Record DriveOutcome := { written : option nat; resolved : bool }.

Inductive Input :=
  | Deliver (ev : Event)
  | Driven (r : ReqId) (o : DriveOutcome).
      (* [transport.handleRequest] of activation [r] is over *)

Record Server := {
  core : State;
  responses : gmap ReqId nat    (* the status written on each response *)
}.

Definition is_driven (st : State) (r : ReqId) : bool :=
  match reqs st !! r with
  | Some rq => match pc rq with AwaitHandleRequest _ => true | _ => false end
  | None => false
  end.

Definition serve (sv : Server) (i : Input) : Server :=
  match i with
  | Deliver ev => {| core := step (core sv) ev; responses := responses sv |}
  | Driven r o =>
      {| core := step (core sv) (HandleRequestSettled r (resolved o));
         responses :=
           match written o with
           | Some code =>
               if is_driven (core sv) r then <[r := code]> (responses sv)
               else responses sv
           | None => responses sv
           end |}
  end.

(** The activation is suspended at one of the two [await server.connect]. *)
Definition awaits_connect (rq : Req) : bool :=
  match pc rq with
  | AwaitConnectStateless _ | AwaitConnectStateful _ _ => true
  | _ => false
  end.

(** Transport identities are handed out in order, and every transport is
    connected in the segment that creates it. *)
Definition connected_once (st : State) : Prop :=
  ∀ t, count (is_new_of t) (trace st) =
         (if bool_decide (t < next_transport st) then 1 else 0)
     ∧ count (is_connect_of t) (trace st) = count (is_new_of t) (trace st).

(** An activation that still waits for [server.connect] has not called
    [handleRequest]; no activation calls it twice; an activation registers
    at most one listener, and none while it waits in the creation branch. *)
Definition driven_once (st : State) : Prop :=
  ∀ r, count (is_handle_of r) (trace st) ≤ 1
     ∧ count (is_res_on_of r) (trace st) ≤ 1
     ∧ match reqs st !! r with
       | None => count (is_handle_of r) (trace st) = 0
                 ∧ count (is_res_on_of r) (trace st) = 0
       | Some rq =>
           match pc rq with
           | AwaitConnectStateless _ => count (is_handle_of r) (trace st) = 0
           | AwaitConnectStateful _ _ =>
               count (is_handle_of r) (trace st) = 0
               ∧ count (is_res_on_of r) (trace st) = 0
           | _ => True
           end
       end.

(** What the trace knows about an activation: its listeners were
    registered through [res.on], and the transport it waits on was created
    the way its branch creates it. *)
Definition req_linked (st : State) (r : ReqId) (rq : Req) : Prop :=
  (∀ l, l ∈ on_close rq → ResOn r l ∈ trace st)
  ∧ match pc rq with
    | AwaitConnectStateless t => ResOn r (CloseTransport t) ∈ trace st
    | AwaitConnectStateful session s =>
        s ≠ "" ∧ NewTransport (transport session) (Some s) ∈ trace st
    | _ => True
    end.

Definition listener_created (tr : list Op) (l : Listener) : Prop :=
  match l with
  | CloseTransport t => NewTransport t None ∈ tr
  | CloseAndDelete t s => NewTransport t (Some s) ∈ tr
  end.

Record linked (st : State) : Prop := {
  lk_new : ∀ t g g',
    NewTransport t g ∈ trace st → NewTransport t g' ∈ trace st → g = g';
  lk_sessions : ∀ s session,
    sessions st !! s = Some session →
    s ≠ "" ∧ NewTransport (transport session) (Some s) ∈ trace st;
  lk_reqs : ∀ r rq, reqs st !! r = Some rq → req_linked st r rq;
  lk_res_on : ∀ r l,
    ResOn r l ∈ trace st → r < length (reqs st) ∧ listener_created (trace st) l;
  lk_owner : ∀ t r r',
    ResOn r (CloseTransport t) ∈ trace st →
    ResOn r' (CloseTransport t) ∈ trace st → r = r';
  lk_handle : ∀ t r r',
    ResOn r (CloseTransport t) ∈ trace st → HandleRequest t r' ∈ trace st → r' = r
}.

(** ** The other functions of the server module

    Strings are Rocq strings, one character per code unit.  A value that
    may be [undefined] (or [null]) is an option. *)

Definition newline : string := String (Ascii.ascii_of_nat 10) "".
Definition dquote : string := String (Ascii.ascii_of_nat 34) "".

(** [a || b] for [a : string | undefined] and a string [b]. *)
Definition js_or (a : option string) (b : string) : string :=
  if js_not a then b else default "" a.

(** The white space and line terminator code units [String.prototype.trim]
    removes, among those a character can hold: TAB, LF, VT, FF, CR, SP and
    NBSP. *)
Definition is_white_space (c : Ascii.ascii) : bool :=
  let n := Ascii.nat_of_ascii c in
  (n =? 9) || (n =? 10) || (n =? 11) || (n =? 12) || (n =? 13) || (n =? 32)
  || (n =? 160).

Fixpoint trim_start (s : string) : string :=
  match s with
  | String c s' => if is_white_space c then trim_start s' else s
  | EmptyString => EmptyString
  end.

Fixpoint trim_end (s : string) : string :=
  match s with
  | String c s' =>
      match trim_end s' with
      | EmptyString => if is_white_space c then EmptyString else String c EmptyString
      | rest => String c rest
      end
  | EmptyString => EmptyString
  end.

(** [s.trim()] *)
Definition trim (s : string) : string := trim_end (trim_start s).

(** [function widgetHtml(rootId, js, css?)] *)
Definition widgetHtml (rootId js : string) (css : option string) : string :=
  trim (newline +:+ "<div id=" +:+ dquote +:+ rootId +:+ dquote +:+ "></div>"
        +:+ newline
        +:+ (if js_not css then "" else "<style>" +:+ default "" css +:+ "</style>")
        +:+ newline
        +:+ "<script type=" +:+ dquote +:+ "module" +:+ dquote +:+ ">" +:+ js
        +:+ "</script>" +:+ newline).

(** One entry of [manifest.components]. *)
Record ComponentMeta := {
  js : option string;
  css : option string;
  resourceUri : option string
}.

(** The parsed manifest, as far as the module reads it.  [components] is
    [None] when the manifest has no such property. *)
Record Manifest := {
  version : string;
  components : option (gmap string ComponentMeta)
}.

(** The constants the module computes from the assets directory while it
    is loaded. *)
Record Assets := {
  IDEA_LIST_JS : string;
  IDEA_LIST_CSS : string;
  IDEA_DETAIL_JS : string;
  IDEA_DETAIL_CSS : string;
  VERSIONED_URIS_ideasList : string;
  VERSIONED_URIS_ideaDetail : string
}.

Section assets.
Context (path_join : string → string → string).   (* path.join *)
Context (ASSETS_PATH : string).                   (* path.resolve("../web/assets") *)
Context (readFileSync : string → option string).  (* None: the call throws *)
Context (JSON_parse : string → option Manifest).  (* None: the call throws *)

(** [function loadAssetText(fileName)] *)
Definition loadAssetText (fileName : option string) : string :=
  if js_not fileName then ""
  else
    let abs := path_join ASSETS_PATH (default "" fileName) in
    match readFileSync abs with
    | Some text => text
    | None => ""
    end.

(** [const manifest = JSON.parse(readFileSync(path.join(ASSETS_PATH,
    "manifest.json"), "utf8"))], outside any [try]: [None] when one of the
    two calls throws. *)
Definition manifest : option Manifest :=
  readFileSync (path_join ASSETS_PATH "manifest.json") ≫= JSON_parse.

(** [manifest.components[name]]: the access throws ([None]) when the
    manifest has no [components]; otherwise it gives the entry or
    [undefined]. *)
Definition component (m : Manifest) (name : string) : option (option ComponentMeta) :=
  (λ comps : gmap string ComponentMeta, comps !! name) <$> components m.

(** The module-level statements on the assets, in source order.  [None]:
    loading the module throws. *)
Definition load_assets : option Assets :=
  m ← manifest;
  ideaListMeta ← component m "ideas-list";
  ideaDetailMeta ← component m "idea-detail";
  Some {| IDEA_LIST_JS := loadAssetText (ideaListMeta ≫= js);
          IDEA_LIST_CSS := loadAssetText (ideaListMeta ≫= css);
          IDEA_DETAIL_JS := loadAssetText (ideaDetailMeta ≫= js);
          IDEA_DETAIL_CSS := loadAssetText (ideaDetailMeta ≫= css);
          VERSIONED_URIS_ideasList :=
            js_or (ideaListMeta ≫= resourceUri)
                  ("ui://widget/v" +:+ version m +:+ "/ideas-list.html");
          VERSIONED_URIS_ideaDetail :=
            js_or (ideaDetailMeta ≫= resourceUri)
                  ("ui://widget/v" +:+ version m +:+ "/idea-detail.html") |}.
End assets.

(** The [text] of the content the "ideas-list-ui" and "idea-detail-ui"
    resources return. *)
Definition ideas_list_ui_text (a : Assets) : string :=
  widgetHtml "ideas-list-root" (IDEA_LIST_JS a) (Some (IDEA_LIST_CSS a)).

Definition idea_detail_ui_text (a : Assets) : string :=
  widgetHtml "idea-detail-root" (IDEA_DETAIL_JS a) (Some (IDEA_DETAIL_CSS a)).

(** JSON values; the number type is left open. *)
#[local] Unset Elimination Schemes.
Inductive Json (Number : Type) : Type :=
  | JNull
  | JBool (b : bool)
  | JNumber (n : Number)
  | JString (s : string)
  | JArray (items : list (Json Number))
  | JObject (fields : list (string * Json Number)).

#[local] Set Elimination Schemes.

Arguments JNull {Number}.
Arguments JBool {Number} b.
Arguments JNumber {Number} n.
Arguments JString {Number} s.
Arguments JArray {Number} items.
Arguments JObject {Number} fields.

(** The arguments of the "update_idea" tool, after validation. *)
Record UpdateIdeaArgs (Number : Type) := {
  idea_id : string;
  title : option string;
  description : option string;
  urgency : option Number;
  archived : option bool;
  notes : option (list string)
}.

Arguments idea_id {Number} _.
Arguments title {Number} _.
Arguments description {Number} _.
Arguments urgency {Number} _.
Arguments archived {Number} _.
Arguments notes {Number} _.

(** [if (v !== undefined) obj.key = v] on an object that has no [key] yet. *)
Definition assign_defined {Number V : Type} (key : string) (v : option V)
    (to_json : V → Json Number) (obj : list (string * Json Number)) :
    list (string * Json Number) :=
  match v with
  | Some x => obj ++ [(key, to_json x)]
  | None => obj
  end.

(** [if (v !== undefined) changes.push(name)] *)
Definition push_defined {V : Type} (v : option V) (name : V → string)
    (changes : list string) : list string :=
  match v with
  | Some x => changes ++ [name x]
  | None => changes
  end.

(** The [updateData] object the "update_idea" handler sends. *)
Definition updateData {Number : Type} (a : UpdateIdeaArgs Number) :
    list (string * Json Number) :=
  let o := [] in
  let o := assign_defined "title" (title a) JString o in
  let o := assign_defined "description" (description a) JString o in
  let o := assign_defined "urgency" (urgency a) JNumber o in
  let o := assign_defined "archived" (archived a) JBool o in
  let o := assign_defined "notes" (notes a) (λ l, JArray (JString <$> l)) o in
  o.

(** The [changes] array of the same handler. *)
Definition changes {Number : Type} (a : UpdateIdeaArgs Number) : list string :=
  let c := [] in
  let c := push_defined (title a) (λ _, "title") c in
  let c := push_defined (description a) (λ _, "description") c in
  let c := push_defined (urgency a) (λ _, "urgency") c in
  let c := push_defined (archived a)
             (λ b : bool, if b then "archived" else "restored") c in
  let c := push_defined (notes a) (λ _, "notes") c in
  c.

(** The text of the result, for the title the backend answered with. *)
Definition update_idea_text {Number : Type} (a : UpdateIdeaArgs Number)
    (idea_title : string) : string :=
  "Updated **" +:+ idea_title +:+ "**"
  +:+ (if bool_decide (0 < length (changes a))
       then " (" +:+ String.concat ", " (changes a) +:+ ")"
       else "").

(** The request body field a change is about. *)
Definition change_field (c : string) : string :=
  if bool_decide (c = "restored") then "archived" else c.

(** A thrown value: an [Error] with its message, or something else. *)
Inductive Thrown :=
  | ErrorObject (message : string)
  | OtherThrown.

(** What [fetch] gives back, as far as [makeApiRequest] looks at it. *)
Record Response (J : Type) := {
  ok : bool;
  status : nat;
  statusText : string;
  json : Thrown + J          (* the outcome of [response.json()] *)
}.

Arguments ok {J} _.
Arguments status {J} _.
Arguments statusText {J} _.
Arguments json {J} _.

Inductive FetchOutcome (J : Type) :=
  | FetchRejects (e : Thrown)
  | FetchResolves (response : Response J).

Arguments FetchRejects {J} e.
Arguments FetchResolves {J} response.

(** An own property of an object literal: absent, or present with a value
    that may be [undefined]. *)
Inductive Own (A : Type) :=
  | Absent
  | Present (v : option A).

Arguments Absent {A}.
Arguments Present {A} v.

(** [RequestInit], as far as this module uses it; [headers] is a plain
    object from header name to value. *)
Record RequestInit := {
  method : Own string;
  body : Own string;
  headers : Own (gmap string string)
}.

(** A property of [{ key: base, ...over }]. *)
Definition spread_own {A : Type} (base over : Own A) : Own A :=
  match over with
  | Absent => base
  | Present v => Present v
  end.

(** [{ ...base, ...h }] for a plain object [base] and [h = options.headers]. *)
Definition spread_headers (base : gmap string string) (h : Own (gmap string string)) :
    gmap string string :=
  match h with
  | Present (Some h') => h' ∪ base
  | _ => base
  end.

(** The second argument [makeApiRequest] passes to [fetch]:
    [{ headers: { "Content-Type": "application/json", ...options.headers },
       ...options }], with [options = {}] when the argument is missing. *)
Definition fetch_init (options : option RequestInit) : RequestInit :=
  let options :=
    default {| method := Absent; body := Absent; headers := Absent |} options in
  {| method := spread_own Absent (method options);
     body := spread_own Absent (body options);
     headers :=
       spread_own
         (Present (Some (spread_headers {[ "Content-Type" := "application/json" ]}
                           (headers options))))
         (headers options) |}.

(** The value of header [name] in the object given to [fetch], if any. *)
Definition header_of (init : RequestInit) (name : string) : option string :=
  match headers init with
  | Present (Some h) => h !! name
  | _ => None
  end.

(** [process.env.REMEMBERBOOK_API_URL || "http://localhost:5055"] *)
Definition REMEMBERBOOK_API_BASE (env : option string) : string :=
  js_or env "http://localhost:5055".

(** What [makeApiRequest] resolves to ([inr]) or rejects with ([inl]). *)
Definition makeApiRequest {J : Type} (out : FetchOutcome J) : Thrown + J :=
  match out with
  | FetchRejects e => inl e
  | FetchResolves response =>
      if negb (ok response) then
        inl (ErrorObject ("API request failed: " +:+ pretty (status response)
                          +:+ " " +:+ statusText response))
      else json response
  end.

(** One entry of the [contents] a resource handler returns. *)
Record Content := { text : string; uri : string; mimeType : string }.

Section resources.
Context {Number : Type}.
Context (stringify : Json Number → string).   (* JSON.stringify(_, null, 2) *)
Context (api_base : string).                  (* REMEMBERBOOK_API_BASE *)

(** The handler of the "ideas" resource. *)
Definition ideas_resource (out : FetchOutcome (Json Number)) : Thrown + list Content :=
  match makeApiRequest out with
  | inl e => inl e
  | inr ideas =>
      inr [{| text := stringify ideas;
              uri := "rememberbook://ideas";
              mimeType := "application/json" |}]
  end.

(** The handler of the "api-status" resource. *)
Definition api_status_resource (out : FetchOutcome (Json Number)) :
    Thrown + list Content :=
  match makeApiRequest out with
  | inr status_json =>
      inr [{| text := stringify status_json;
              uri := "rememberbook://status";
              mimeType := "application/json" |}]
  | inl error =>
      inr [{| text :=
                stringify
                  (JObject
                     [("error", JString "Failed to connect to RememberBook API");
                      ("details",
                       JString (match error with
                                | ErrorObject message => message
                                | OtherThrown => "Unknown error"
                                end));
                      ("api_url", JString api_base)]);
              uri := "rememberbook://status";
              mimeType := "application/json" |}]
  end.
End resources.

(** ** The three ways through the first segment *)

Lemma js_not_false (q : option string) :
  js_not q = false → ∃ s, q = Some s ∧ s ≠ "".
Proof.
  destruct q as [s|]; simpl; [|done].
  intros H. exists s. split; [done|]. by apply bool_decide_eq_false in H.
Qed.

Lemma js_not_some (s : string) : s ≠ "" → js_not (Some s) = false.
Proof. intros H. simpl. by apply bool_decide_eq_false. Qed.

Lemma post_stateless (q : option string) (st : State) :
  js_not q = true →
  post q st =
    {| sessions := sessions st;
       next_transport := S (next_transport st);
       reqs := reqs st ++ [{| pc := AwaitConnectStateless (next_transport st);
                              on_close := [CloseTransport (next_transport st)] |}];
       trace := trace st ++ [NewTransport (next_transport st) None;
                             ResOn (length (reqs st)) (CloseTransport (next_transport st));
                             ServerConnect server (next_transport st)] |}.
Proof. intros H. unfold post. by rewrite H. Qed.

Lemma post_create (s : string) (st : State) :
  s ≠ "" → sessions st !! s = None →
  post (Some s) st =
    {| sessions := <[s := {| transport := next_transport st |}]> (sessions st);
       next_transport := S (next_transport st);
       reqs := reqs st ++
         [{| pc := AwaitConnectStateful {| transport := next_transport st |} s;
             on_close := [] |}];
       trace := trace st ++ [NewTransport (next_transport st) (Some s);
                             SessionsSet s (next_transport st);
                             ServerConnect server (next_transport st)] |}.
Proof.
  intros Hs Hnone. unfold post. rewrite (js_not_some s Hs). simpl.
  by rewrite Hnone.
Qed.

Lemma post_reuse (s : string) (session : SessionRecord) (st : State) :
  s ≠ "" → sessions st !! s = Some session →
  post (Some s) st =
    {| sessions := sessions st;
       next_transport := next_transport st;
       reqs := reqs st ++ [{| pc := AwaitHandleRequest (transport session);
                              on_close := [] |}];
       trace := trace st ++ [HandleRequest (transport session) (length (reqs st))] |}.
Proof.
  intros Hs Hsome. unfold post. rewrite (js_not_some s Hs). simpl.
  by rewrite Hsome.
Qed.

(** Case analysis on the branch the first segment takes. *)
Ltac post_cases q st :=
  let Hq := fresh "Hq" in
  let s' := fresh "s'" in
  let Hs' := fresh "Hs'" in
  let Hl := fresh "Hl" in
  let session := fresh "session" in
  destruct (js_not q) eqn:Hq;
  [ rewrite (post_stateless q st Hq)
  | apply js_not_false in Hq as (s' & -> & Hs');
    destruct (sessions st !! s') as [session|] eqn:Hl;
    [ rewrite (post_reuse s' session st Hs' Hl)
    | rewrite (post_create s' st Hs' Hl) ] ].

(** ** Listeners *)

Lemma run_listeners_next_transport (ls : list Listener) (st : State) :
  next_transport (foldl run_listener st ls) = next_transport st.
Proof.
  revert st. induction ls as [|l ls IH]; intros st; [done|].
  simpl. rewrite IH. by destruct l.
Qed.

Lemma run_listeners_reqs (ls : list Listener) (st : State) :
  reqs (foldl run_listener st ls) = reqs st.
Proof.
  revert st. induction ls as [|l ls IH]; intros st; [done|].
  simpl. rewrite IH. by destruct l.
Qed.

Lemma run_listeners_sessions (ls : list Listener) (st : State) :
  sessions (foldl run_listener st ls) =
  foldl (λ m s, delete s m) (sessions st) (deleted_ids ls).
Proof.
  revert st. induction ls as [|l ls IH]; intros st; [done|].
  simpl. rewrite IH. by destruct l.
Qed.

(** ** Frame facts of a step *)

Lemma step_next_transport_mono (st : State) (ev : Event) :
  next_transport st ≤ next_transport (step st ev).
Proof.
  destruct ev as [q|r ok|r ok|r]; simpl.
  - unfold post. destruct (js_not q); simpl; [lia|].
    destruct (sessions st !! default "" q); simpl; lia.
  - unfold connect_settled. destruct (reqs st !! r) as [rq|]; [|done].
    destruct (pc rq); try done; destruct ok; simpl; lia.
  - unfold handle_request_settled. destruct (reqs st !! r) as [rq|]; [|done].
    destruct (pc rq); try done; simpl; lia.
  - unfold res_close. destruct (reqs st !! r) as [rq|]; [|done].
    by rewrite run_listeners_next_transport.
Qed.

Lemma run_next_transport_mono (sch : list Event) (st : State) :
  next_transport st ≤ next_transport (run sch st).
Proof.
  revert st. induction sch as [|ev sch IH]; intros st; [done|].
  simpl. etrans; [apply (step_next_transport_mono st ev)|apply IH].
Qed.

Lemma run_app (sch1 sch2 : list Event) (st : State) :
  run (sch1 ++ sch2) st = run sch2 (run sch1 st).
Proof. unfold run. apply foldl_app. Qed.

Lemma run_snoc (sch : list Event) (ev : Event) (st : State) :
  run (sch ++ [ev]) st = step (run sch st) ev.
Proof. by rewrite run_app. Qed.

(** Induction on schedules from the right: a property of the initial state
    kept by every step holds of every reachable state. *)
Lemma run_ind (P : State → Prop) (st0 : State) :
  P st0 → (∀ st ev, P st → P (step st ev)) → ∀ sch, P (run sch st0).
Proof.
  intros H0 Hstep sch. induction sch as [|ev sch IH] using rev_ind; [done|].
  rewrite run_snoc. by apply Hstep.
Qed.

(** ** Listeners of an activation that is past its registration *)

Lemma lookup_set_req (r r' : ReqId) (rq : Req) (st : State) :
  r' < length (reqs st) →
  reqs (set_req r' rq st) !! r = if decide (r' = r) then Some rq else reqs st !! r.
Proof.
  intros Hlt. simpl. destruct (decide (r' = r)) as [->|Hne].
  - by apply list_lookup_insert_eq.
  - by apply list_lookup_insert_ne.
Qed.

Lemma listeners_fixed_step (r : ReqId) (ls : list Listener) (st : State) (ev : Event) :
  listeners_fixed r ls st → listeners_fixed r ls (step st ev).
Proof.
  intros (rq & Hr & Hls & Hpc). destruct ev as [q|r' ok|r' ok|r']; simpl.
  - exists rq. split; [|done].
    assert (∀ x, (reqs st ++ [x]) !! r = Some rq) as Happ
      by (intros x; by apply lookup_app_l_Some).
    unfold post. destruct (js_not q); simpl; [apply Happ|].
    destruct (sessions st !! default "" q); simpl; apply Happ.
  - unfold connect_settled.
    destruct (reqs st !! r') as [rq'|] eqn:Hr'; [|by exists rq].
    assert (r' < length (reqs st)) as Hlt by (by eapply lookup_lt_Some).
    destruct (decide (r' = r)) as [->|Hne].
    + assert (rq' = rq) as -> by congruence.
      pose proof Hpc as Hpc'. unfold registration_pending in Hpc'.
      destruct (pc rq) eqn:Hpcq; try done; try (by exists rq).
      destruct ok; eexists; (split; [rewrite lookup_set_req; [|done];
        by rewrite decide_True|done]).
    + destruct (pc rq'); try (by exists rq); destruct ok;
        exists rq; (split; [rewrite lookup_set_req; [|done];
          by rewrite decide_False|done]).
  - unfold handle_request_settled.
    destruct (reqs st !! r') as [rq'|] eqn:Hr'; [|by exists rq].
    assert (r' < length (reqs st)) as Hlt by (by eapply lookup_lt_Some).
    destruct (decide (r' = r)) as [->|Hne].
    + assert (rq' = rq) as -> by congruence.
      destruct (pc rq) eqn:Hpcq; try (by exists rq).
      eexists; split; [rewrite lookup_set_req; [|done]; by rewrite decide_True|].
      split; [done|]. unfold registration_pending. simpl. by destruct ok.
    + destruct (pc rq'); try (by exists rq).
      exists rq; (split; [rewrite lookup_set_req; [|done];
          by rewrite decide_False|done]).
  - unfold res_close. destruct (reqs st !! r') as [rq'|]; [|by exists rq].
    exists rq. by rewrite run_listeners_reqs.
Qed.

Lemma listeners_fixed_run (r : ReqId) (ls : list Listener) (sch : list Event) (st : State) :
  listeners_fixed r ls st → listeners_fixed r ls (run sch st).
Proof.
  intros H. apply run_ind; [done|].
  intros st' ev. apply listeners_fixed_step.
Qed.

Lemma res_close_fixed (r : ReqId) (ls : list Listener) (st : State) :
  listeners_fixed r ls st → res_close r st = foldl run_listener st ls.
Proof. intros (rq & Hr & <- & _). unfold res_close. by rewrite Hr. Qed.

(** ** Counting on traces *)

Section counting.
Context (p : Op → bool).

Lemma count_app (tr1 tr2 : list Op) :
  count p (tr1 ++ tr2) = count p tr1 + count p tr2.
Proof. induction tr1 as [|o tr1 IH]; simpl; [done|]. rewrite IH. lia. Qed.

Lemma count_cons (o : Op) (tr : list Op) :
  count p (o :: tr) = (if p o then 1 else 0) + count p tr.
Proof. done. Qed.

Lemma count_nil : count p [] = 0.
Proof. done. Qed.

Lemma count_zero_not_in (tr : list Op) (o : Op) :
  count p tr = 0 → o ∈ tr → p o = false.
Proof.
  induction tr as [|o' tr IH]; intros Hc Hin.
  - by apply elem_of_nil in Hin.
  - rewrite count_cons in Hc. apply elem_of_cons in Hin as [->|Hin].
    + destruct (p o'); [simpl in Hc; lia|done].
    + apply IH; [lia|done].
Qed.

(** At most one hit: two positions that hit are one position. *)
Lemma count_le_one_unique (tr : list Op) (i j : nat) (o1 o2 : Op) :
  count p tr ≤ 1 →
  tr !! i = Some o1 → tr !! j = Some o2 → p o1 = true → p o2 = true → i = j.
Proof.
  revert i j. induction tr as [|o tr IH]; intros i j Hc Hi Hj H1 H2; [done|].
  rewrite count_cons in Hc.
  destruct i as [|i], j as [|j]; simpl in *; simplify_eq; [done| | |].
  - rewrite H1 in Hc. assert (count p tr = 0) as Hz by lia.
    apply list_elem_of_lookup_2 in Hj.
    pose proof (count_zero_not_in tr o2 Hz Hj). congruence.
  - rewrite H2 in Hc. assert (count p tr = 0) as Hz by lia.
    apply list_elem_of_lookup_2 in Hi.
    pose proof (count_zero_not_in tr o1 Hz Hi). congruence.
  - f_equal. apply IH; [|done..]. destruct (p o); simpl in Hc; lia.
Qed.
End counting.

(** Induction over the schedules whose events all pass a test. *)
Lemma run_ind_on (good : Event → bool) (P : State → Prop) (st0 : State) :
  P st0 →
  (∀ st ev, good ev = true → P st → P (step st ev)) →
  ∀ sch, forallb good sch = true → P (run sch st0).
Proof.
  intros H0 Hstep sch. induction sch as [|ev sch IH] using rev_ind; [done|].
  rewrite forallb_app. simpl. intros [Hsch Hev]%andb_true_iff.
  rewrite run_snoc. apply Hstep; [|by apply IH].
  by destruct (good ev).
Qed.

(** ** Registry balance

    For every session id, the transports created for it are as many as the
    removals of its key plus one if the key is in the registry now: the
    handler creates a transport for an id only when the id is absent, and
    stores it under the id at once. *)

Lemma balanced_init : balanced init.
Proof. intros s. done. Qed.

Lemma in_registry_insert (s s' : string) (session : SessionRecord) (st st' : State) :
  sessions st !! s' = None →
  sessions st' = <[s' := session]> (sessions st) →
  in_registry s st' = (if bool_decide (s' = s) then 1 else 0) + in_registry s st.
Proof.
  intros Hnone Heq. unfold in_registry. rewrite Heq.
  case_bool_decide as Hs.
  - subst s'. rewrite lookup_insert_eq, Hnone. done.
  - by rewrite lookup_insert_ne.
Qed.

Lemma balanced_listener (st : State) (l : Listener) :
  balanced st → balanced (run_listener st l).
Proof.
  intros Hb s. destruct (Hb s) as [Hc Hs].
  destruct l as [t|t s']; simpl; unfold created_for in *.
  - rewrite !count_app, !count_cons, !count_nil. simpl.
    unfold in_registry in *. simpl. lia.
  - rewrite !count_app, !count_cons, !count_nil. simpl.
    unfold in_registry in *. simpl.
    destruct (decide (s' = s)) as [->|Hne].
    + rewrite lookup_delete_eq.
      destruct (sessions st !! s) as [session|] eqn:Hl; simpl.
      * rewrite bool_decide_eq_true_2 by done. lia.
      * lia.
    + rewrite lookup_delete_ne by done.
      destruct (bool_decide (is_Some (sessions st !! s')));
        [rewrite bool_decide_eq_false_2 by done|]; lia.
Qed.

Lemma balanced_listeners (ls : list Listener) (st : State) :
  balanced st → balanced (foldl run_listener st ls).
Proof.
  revert st. induction ls as [|l ls IH]; intros st Hb; [done|].
  simpl. apply IH. by apply balanced_listener.
Qed.

Lemma balanced_set_req (r : ReqId) (rq : Req) (st : State) :
  balanced st → balanced (set_req r rq st).
Proof. intros Hb s. apply (Hb s). Qed.

Lemma balanced_emit_quiet (ops : list Op) (st : State) :
  (∀ s, count (is_creation_for s) ops = 0 ∧ count (is_removal_of s) ops = 0
        ∧ count (is_set_of s) ops = 0) →
  balanced st → balanced (emit ops st).
Proof.
  intros Hq Hb s. destruct (Hb s) as [Hc Hs]. destruct (Hq s) as (Q1 & Q2 & Q3).
  unfold created_for, in_registry in *. simpl. rewrite !count_app. lia.
Qed.

Lemma balanced_step (st : State) (ev : Event) :
  balanced st → balanced (step st ev).
Proof.
  intros Hb. destruct ev as [q|r ok|r ok|r]; simpl.
  - destruct (js_not q) eqn:Hq.
    + rewrite post_stateless by done. intros s. destruct (Hb s) as [Hc Hs].
      unfold created_for, in_registry in *. simpl.
      rewrite !count_app, !count_cons, !count_nil. simpl. lia.
    + apply js_not_false in Hq as (s' & -> & Hs').
      destruct (sessions st !! s') as [session|] eqn:Hl.
      * rewrite (post_reuse s' session) by done.
        intros s. destruct (Hb s) as [Hc Hs].
        unfold created_for, in_registry in *. simpl.
        rewrite !count_app, !count_cons, !count_nil. simpl. lia.
      * rewrite post_create by done. intros s. destruct (Hb s) as [Hc Hs].
        rewrite (in_registry_insert s s' {| transport := next_transport st |} st)
          by done.
        unfold created_for in *. simpl.
        rewrite !count_app, !count_cons, !count_nil. simpl.
        destruct (bool_decide (s' = s)); lia.
  - unfold connect_settled. destruct (reqs st !! r) as [rq|]; [|done].
    destruct (pc rq); try done; destruct ok;
      try (by apply balanced_set_req);
      apply balanced_set_req, balanced_emit_quiet; done.
  - unfold handle_request_settled. destruct (reqs st !! r) as [rq|]; [|done].
    by destruct (pc rq).
  - unfold res_close. destruct (reqs st !! r) as [rq|]; [|done].
    by apply balanced_listeners.
Qed.

Lemma balanced_run (sch : list Event) : balanced (run sch init).
Proof. apply run_ind; [apply balanced_init|]. intros st ev. apply balanced_step. Qed.

Lemma no_delete_step (st : State) (ev : Event) :
  negb (is_res_close ev) = true → no_delete st → no_delete (step st ev).
Proof.
  intros Hev Hn s. specialize (Hn s). destruct ev as [q|r ok|r ok|r]; simpl in *.
  - unfold post. destruct (js_not q); simpl.
    + rewrite count_app, !count_cons, count_nil. simpl. lia.
    + destruct (sessions st !! default "" q); simpl;
        rewrite count_app, !count_cons, count_nil; simpl; lia.
  - unfold connect_settled. destruct (reqs st !! r) as [rq|]; [|done].
    destruct (pc rq); try done; destruct ok; simpl; try done;
      rewrite count_app, !count_cons, count_nil; simpl; lia.
  - unfold handle_request_settled. destruct (reqs st !! r) as [rq|]; [|done].
    by destruct (pc rq).
  - done.
Qed.

Lemma no_delete_run (sch : list Event) :
  forallb (λ ev, negb (is_res_close ev)) sch = true → no_delete (run sch init).
Proof.
  apply (run_ind_on (λ ev, negb (is_res_close ev)) no_delete); [done|].
  intros st ev. apply no_delete_step.
Qed.

(** ** Object identities

    Every transport the state or the trace mentions was created by an
    earlier [new StreamableHTTPServerTransport], and every
    [server.connect] was made on the module-level [server]. *)

Lemma op_ok_mono (n m : nat) (o : Op) : n ≤ m → op_ok n o → op_ok m o.
Proof. intros Hle. destruct o as [| | | | ? []| |]; simpl; intros; try done; try lia. Qed.

Lemma listener_ok_mono (n m : nat) (l : Listener) : n ≤ m → listener_ok n l → listener_ok m l.
Proof. intros Hle. destruct l; simpl; lia. Qed.

Lemma req_ok_mono (n m : nat) (rq : Req) : n ≤ m → req_ok n rq → req_ok m rq.
Proof.
  intros Hle [Hpc Hls]. split.
  - destruct (pc rq); simpl in *; try done; lia.
  - eapply Forall_impl; [done|]. intros l. by apply listener_ok_mono.
Qed.

Lemma wf_init : wf init.
Proof. split; simpl; [apply map_Forall_empty|done|done]. Qed.

Lemma wf_listener (st : State) (l : Listener) :
  listener_ok (next_transport st) l → wf st → wf (run_listener st l).
Proof.
  intros Hl [Hs Hr Ht]. destruct l as [t|t s]; simpl in *.
  - split; simpl; [done|done|]. apply Forall_app. split; [done|].
    by repeat constructor.
  - split; simpl; [by apply map_Forall_delete|done|].
    apply Forall_app. split; [done|]. by repeat constructor.
Qed.

Lemma wf_listeners (ls : list Listener) (st : State) :
  Forall (listener_ok (next_transport st)) ls → wf st → wf (foldl run_listener st ls).
Proof.
  revert st. induction ls as [|l ls IH]; intros st Hls Hwf; [done|].
  apply Forall_cons in Hls as [Hl Hls]. simpl. apply IH.
  - by destruct l.
  - by apply wf_listener.
Qed.

Lemma wf_req_lookup (st : State) (r : ReqId) (rq : Req) :
  wf st → reqs st !! r = Some rq → req_ok (next_transport st) rq.
Proof. intros [_ Hr _] Hl. by eapply Forall_lookup_1. Qed.

Lemma wf_set_req (st : State) (r : ReqId) (rq : Req) (ops : list Op) :
  wf st → req_ok (next_transport st) rq → Forall (op_ok (next_transport st)) ops →
  wf (set_req r rq (emit ops st)).
Proof.
  intros [Hs Hr Ht] Hrq Hops. split; simpl; [done| |].
  - by apply Forall_insert.
  - apply Forall_app. by split.
Qed.

Lemma wf_set_req_only (st : State) (r : ReqId) (rq : Req) :
  wf st → req_ok (next_transport st) rq → wf (set_req r rq st).
Proof.
  intros [Hs Hr Ht] Hrq. split; simpl; [done| |done]. by apply Forall_insert.
Qed.

Lemma wf_step (st : State) (ev : Event) : wf st → wf (step st ev).
Proof.
  intros Hwf. pose proof Hwf as [Hs Hr Ht].
  destruct ev as [q|r ok|r ok|r]; simpl.
  - destruct (js_not q) eqn:Hq.
    + rewrite post_stateless by done. split; simpl.
      * eapply map_Forall_impl; [done|]. simpl. intros; lia.
      * apply Forall_app. split.
        -- eapply Forall_impl; [done|]. intros rq. apply req_ok_mono. lia.
        -- repeat constructor; simpl; lia.
      * apply Forall_app. split.
        -- eapply Forall_impl; [done|]. intros o. apply op_ok_mono. lia.
        -- repeat constructor; simpl; lia.
    + apply js_not_false in Hq as (s' & -> & Hs').
      destruct (sessions st !! s') as [session|] eqn:Hl.
      * rewrite (post_reuse s' session) by done.
        pose proof (Hs s' session Hl) as Hlt. simpl in Hlt.
        split; simpl; [done| |].
        -- apply Forall_app. split; [done|]. by repeat constructor.
        -- apply Forall_app. split; [done|]. by repeat constructor.
      * rewrite post_create by done. split; simpl.
        -- apply map_Forall_insert_2; [simpl; lia|].
           eapply map_Forall_impl; [done|]. simpl. intros; lia.
        -- apply Forall_app. split.
           ++ eapply Forall_impl; [done|]. intros rq. apply req_ok_mono. lia.
           ++ repeat constructor; simpl; lia.
        -- apply Forall_app. split.
           ++ eapply Forall_impl; [done|]. intros o. apply op_ok_mono. lia.
           ++ repeat constructor; simpl; lia.
  - unfold connect_settled. destruct (reqs st !! r) as [rq|] eqn:Hl; [|done].
    destruct (wf_req_lookup st r rq Hwf Hl) as [Hpc Hls].
    destruct (pc rq) as [t|session s|t| |] eqn:Hpcq; try done;
      destruct ok; simpl in Hpc.
    + apply wf_set_req; [done|by split|by repeat constructor].
    + apply wf_set_req_only; [done|by split].
    + apply wf_set_req; [done| |by repeat constructor].
      split; [done|]. simpl. apply Forall_app. split; [done|].
      by repeat constructor.
    + apply wf_set_req_only; [done|by split].
  - unfold handle_request_settled. destruct (reqs st !! r) as [rq|] eqn:Hl; [|done].
    destruct (wf_req_lookup st r rq Hwf Hl) as [Hpc Hls].
    destruct (pc rq) eqn:Hpcq; try done.
    apply wf_set_req_only; [done|]. split; [by destruct ok|done].
  - unfold res_close. destruct (reqs st !! r) as [rq|] eqn:Hl; [|done].
    destruct (wf_req_lookup st r rq Hwf Hl) as [Hpc Hls].
    by apply wf_listeners.
Qed.

Lemma wf_run (sch : list Event) : wf (run sch init).
Proof. apply run_ind; [apply wf_init|]. intros st ev. apply wf_step. Qed.

(** ** What a step leaves alone *)

Lemma connect_settled_sessions (r : ReqId) (ok : bool) (st : State) :
  sessions (connect_settled r ok st) = sessions st
  ∧ next_transport (connect_settled r ok st) = next_transport st.
Proof.
  unfold connect_settled. destruct (reqs st !! r) as [rq|]; [|done].
  destruct (pc rq); try done; by destruct ok.
Qed.

Lemma handle_request_settled_frame (r : ReqId) (ok : bool) (st : State) :
  sessions (handle_request_settled r ok st) = sessions st
  ∧ next_transport (handle_request_settled r ok st) = next_transport st
  ∧ trace (handle_request_settled r ok st) = trace st.
Proof.
  unfold handle_request_settled. destruct (reqs st !! r) as [rq|]; [|done].
  by destruct (pc rq).
Qed.

(** Only a [close] event takes an entry out of the registry. *)
Lemma entry_kept (st : State) (ev : Event) (s : string) (session : SessionRecord) :
  is_res_close ev = false →
  sessions st !! s = Some session → sessions (step st ev) !! s = Some session.
Proof.
  intros Hev Hl. destruct ev as [q|r ok|r ok|r]; simpl in *; [| | |done].
  - post_cases q st; simpl; [done|done|].
    rewrite lookup_insert_ne; [done|]. intros ->. congruence.
  - by rewrite (proj1 (connect_settled_sessions r ok st)).
  - by rewrite (proj1 (handle_request_settled_frame r ok st)).
Qed.

Lemma entry_kept_run (sch : list Event) (st : State) (s : string) (session : SessionRecord) :
  forallb (λ ev, negb (is_res_close ev)) sch = true →
  sessions st !! s = Some session → sessions (run sch st) !! s = Some session.
Proof.
  intros Hsch Hl.
  apply (run_ind_on (λ ev, negb (is_res_close ev))
           (λ st', sessions st' !! s = Some session)); [done| |done].
  intros st' ev Hev. apply entry_kept. by destruct (is_res_close ev).
Qed.

(** Only a [close] event calls [transport.close()]. *)
Lemma close_calls_kept (st : State) (ev : Event) (t : TransportId) :
  is_res_close ev = false →
  close_calls t (trace (step st ev)) = close_calls t (trace st).
Proof.
  intros Hev. unfold close_calls.
  destruct ev as [q|r ok|r ok|r]; simpl in *; [| | |done].
  - post_cases q st; simpl; rewrite count_app; simpl; lia.
  - unfold connect_settled. destruct (reqs st !! r) as [rq|]; [|done].
    destruct (pc rq); try done; destruct ok; simpl; try done;
      rewrite count_app; simpl; lia.
  - by rewrite (proj2 (proj2 (handle_request_settled_frame r ok st))).
Qed.

Lemma close_calls_kept_run (sch : list Event) (st : State) (t : TransportId) :
  forallb (λ ev, negb (is_res_close ev)) sch = true →
  close_calls t (trace (run sch st)) = close_calls t (trace st).
Proof.
  intros Hsch.
  apply (run_ind_on (λ ev, negb (is_res_close ev))
           (λ st', close_calls t (trace st') = close_calls t (trace st)));
    [done| |done].
  intros st' ev Hev IH. rewrite close_calls_kept; [done|].
  by destruct (is_res_close ev).
Qed.

(** Once posted, a session id stays registered until a [close] event. *)
Lemma post_registers (s : string) (st : State) :
  s ≠ "" → is_Some (sessions (post (Some s) st) !! s).
Proof.
  intros Hs. destruct (sessions st !! s) as [session|] eqn:Hl.
  - rewrite (post_reuse s session) by done. simpl. by rewrite Hl.
  - rewrite post_create by done. simpl. rewrite lookup_insert_eq. by eexists.
Qed.

Lemma posted_registered (sch : list Event) (st : State) (s : string) :
  s ≠ "" →
  forallb (λ ev, negb (is_res_close ev)) sch = true →
  Post (Some s) ∈ sch →
  is_Some (sessions (run sch st) !! s).
Proof.
  intros Hs Hsch Hin.
  apply list_elem_of_split in Hin as (sch1 & sch2 & ->).
  rewrite forallb_app in Hsch. apply andb_true_iff in Hsch as [_ H2].
  simpl in H2. rewrite run_app. simpl.
  destruct (post_registers s (run sch1 st) Hs) as [session Hl].
  exists session. by apply entry_kept_run.
Qed.

(** ** Activations between their segments *)

(** An activation that waits for [server.connect] stays as it is until that
    promise settles, whatever else runs. *)
Lemma pending_kept (st : State) (ev : Event) (r : ReqId) (rq : Req) :
  reqs st !! r = Some rq → awaits_connect rq = true →
  is_connect_settled_of r ev = false →
  reqs (step st ev) !! r = Some rq.
Proof.
  intros Hl Haw Hev.
  assert (r < length (reqs st)) as Hlt by (by eapply lookup_lt_Some).
  destruct ev as [q|r' ok|r' ok|r']; simpl in *.
  - post_cases q st; simpl; by apply lookup_app_l_Some.
  - apply bool_decide_eq_false in Hev. unfold connect_settled.
    destruct (reqs st !! r') as [rq'|] eqn:Hl'; [|done].
    destruct (pc rq'); try done; destruct ok; simpl;
      by rewrite list_lookup_insert_ne.
  - unfold handle_request_settled.
    destruct (reqs st !! r') as [rq'|] eqn:Hl'; [|done].
    destruct (decide (r' = r)) as [->|Hne].
    + assert (rq' = rq) as -> by congruence. unfold awaits_connect in Haw.
      by destruct (pc rq).
    + destruct (pc rq'); try done. simpl. by rewrite list_lookup_insert_ne.
  - unfold res_close. destruct (reqs st !! r') as [rq'|]; [|done].
    by rewrite run_listeners_reqs.
Qed.

Lemma pending_kept_run (sch : list Event) (st : State) (r : ReqId) (rq : Req) :
  reqs st !! r = Some rq → awaits_connect rq = true →
  forallb (λ ev, negb (is_connect_settled_of r ev)) sch = true →
  reqs (run sch st) !! r = Some rq.
Proof.
  intros Hl Haw Hsch.
  apply (run_ind_on (λ ev, negb (is_connect_settled_of r ev))
           (λ st', reqs st' !! r = Some rq)); [done| |done].
  intros st' ev Hev IH. apply pending_kept; [done|done|].
  by destruct (is_connect_settled_of r ev).
Qed.

(** An activation is changed only by the settling of its own promises. *)
Lemma req_untouched (st : State) (ev : Event) (r : ReqId) (rq : Req) :
  reqs st !! r = Some rq → settles r ev = false →
  reqs (step st ev) !! r = Some rq.
Proof.
  intros Hl Hev.
  assert (r < length (reqs st)) as Hlt by (by eapply lookup_lt_Some).
  destruct ev as [q|r' ok|r' ok|r']; simpl in *.
  - post_cases q st; simpl; by apply lookup_app_l_Some.
  - apply bool_decide_eq_false in Hev. unfold connect_settled.
    destruct (reqs st !! r') as [rq'|] eqn:Hl'; [|done].
    destruct (pc rq'); try done; destruct ok; simpl;
      by rewrite list_lookup_insert_ne.
  - apply bool_decide_eq_false in Hev. unfold handle_request_settled.
    destruct (reqs st !! r') as [rq'|] eqn:Hl'; [|done].
    destruct (pc rq'); try done. simpl. by rewrite list_lookup_insert_ne.
  - unfold res_close. destruct (reqs st !! r') as [rq'|]; [|done].
    by rewrite run_listeners_reqs.
Qed.

Lemma req_untouched_run (sch : list Event) (st : State) (r : ReqId) (rq : Req) :
  reqs st !! r = Some rq →
  forallb (λ ev, negb (settles r ev)) sch = true →
  reqs (run sch st) !! r = Some rq.
Proof.
  intros Hl Hsch.
  apply (run_ind_on (λ ev, negb (settles r ev))
           (λ st', reqs st' !! r = Some rq)); [done| |done].
  intros st' ev Hev IH. apply req_untouched; [done|].
  by destruct (settles r ev).
Qed.

Lemma quiet_for_split (r : ReqId) (sch : list Event) :
  forallb (quiet_for r) sch = true →
  forallb (λ ev, negb (is_res_close ev)) sch = true
  ∧ forallb (λ ev, negb (is_connect_settled_of r ev)) sch = true.
Proof.
  induction sch as [|ev sch IH]; [done|]. simpl. unfold quiet_for at 1.
  intros [[H1 H2]%andb_true_iff H3]%andb_true_iff.
  destruct (IH H3) as [I1 I2]. rewrite H1, H2, I1, I2. done.
Qed.

Lemma res_close_lookup (st : State) (r : ReqId) (rq : Req) :
  reqs st !! r = Some rq → step st (ResClose r) = foldl run_listener st (on_close rq).
Proof. intros Hl. simpl. unfold res_close. by rewrite Hl. Qed.

(** The segment after [await server.connect], in each of its three cases. *)
Lemma connect_resolved_stateful (st : State) (r : ReqId) (t : TransportId) (s : string) :
  reqs st !! r =
    Some {| pc := AwaitConnectStateful {| transport := t |} s; on_close := [] |} →
  step st (ConnectSettled r true) =
    set_req r {| pc := AwaitHandleRequest t; on_close := [CloseAndDelete t s] |}
      (emit [ResOn r (CloseAndDelete t s); HandleRequest t r] st).
Proof. intros Hl. simpl. unfold connect_settled. by rewrite Hl. Qed.

Lemma connect_resolved_stateless (st : State) (r : ReqId) (t : TransportId) :
  reqs st !! r =
    Some {| pc := AwaitConnectStateless t; on_close := [CloseTransport t] |} →
  step st (ConnectSettled r true) =
    set_req r {| pc := AwaitHandleRequest t; on_close := [CloseTransport t] |}
      (emit [HandleRequest t r] st).
Proof. intros Hl. simpl. unfold connect_settled. by rewrite Hl. Qed.

Lemma connect_rejected (st : State) (r : ReqId) (rq : Req) :
  reqs st !! r = Some rq → awaits_connect rq = true →
  step st (ConnectSettled r false) =
    set_req r {| pc := Rejected; on_close := on_close rq |} st.
Proof.
  intros Hl Haw. simpl. unfold connect_settled. rewrite Hl.
  unfold awaits_connect in Haw. by destruct (pc rq).
Qed.

(** The creation branch leaves the activation waiting, without listener. *)
Lemma post_create_pending (st : State) (s : string) :
  s ≠ "" → sessions st !! s = None →
  reqs (step st (Post (Some s))) !! length (reqs st) =
    Some {| pc := AwaitConnectStateful {| transport := next_transport st |} s;
            on_close := [] |}
  ∧ next_transport (step st (Post (Some s))) = S (next_transport st)
  ∧ sessions (step st (Post (Some s))) !! s =
      Some {| transport := next_transport st |}.
Proof.
  intros Hs Hnone. simpl. rewrite post_create by done. simpl.
  split; [by rewrite lookup_app_r, Nat.sub_diag|].
  split; [done|apply lookup_insert_eq].
Qed.

Lemma post_stateless_pending (st : State) (q : option string) :
  js_not q = true →
  reqs (step st (Post q)) !! length (reqs st) =
    Some {| pc := AwaitConnectStateless (next_transport st);
            on_close := [CloseTransport (next_transport st)] |}.
Proof.
  intros Hq. simpl. rewrite post_stateless by done. simpl.
  by rewrite lookup_app_r, Nat.sub_diag.
Qed.

Lemma close_and_delete (t : TransportId) (s : string) (st : State) :
  foldl run_listener st [CloseAndDelete t s] =
    {| sessions := delete s (sessions st);
       next_transport := next_transport st;
       reqs := reqs st;
       trace := trace st ++
         [TransportClose t;
          SessionsDelete s (bool_decide (is_Some (sessions st !! s)))] |}.
Proof. done. Qed.

(** * Properties of the multiplexer *)

(** C10: a request whose [sessionId] query parameter is the empty string is
    handled exactly as a request without the parameter.  The handler tests
    [!sessionId], so both take the stateless branch: the two resulting
    states are equal, the registry is untouched whatever it holds, and the
    only transport made is the disposable one (no session id generator). *)
Theorem empty_sessionId_takes_stateless_path (st : State) :
  step st (Post (Some "")) = step st (Post None)
  ∧ sessions (step st (Post (Some ""))) = sessions st
  ∧ trace (step st (Post (Some ""))) =
      trace st ++ [NewTransport (next_transport st) None;
                   ResOn (length (reqs st)) (CloseTransport (next_transport st));
                   ServerConnect server (next_transport st)]
  ∧ reqs (step st (Post (Some ""))) =
      reqs st ++ [{| pc := AwaitConnectStateless (next_transport st);
                     on_close := [CloseTransport (next_transport st)] |}]
  ∧ (∀ q, js_not q = true ↔ q = None ∨ q = Some "").
Proof.
  assert (js_not (Some "") = true) as Hempty by done.
  simpl. rewrite (post_stateless (Some "") st Hempty).
  rewrite (post_stateless None st) by done.
  repeat split; try done.
  - destruct q as [s|]; simpl; [|by left].
    intros Hq%bool_decide_eq_true. right. by subst.
  - intros [->| ->]; done.
Qed.

(** C7: in the creation branch (session id given and not in the registry)
    the record is stored with [sessions.set] before [server.connect] is
    called on the new transport, and the activation then waits for the
    connect promise.  Whatever runs before a [close] event, and so in
    particular anything that runs before the connect promise settles, finds
    that record: a further request with the same id drives the very same
    transport and creates none. *)
Theorem insert_precedes_bind (st : State) (s : string) (sch : list Event) :
  s ≠ "" → sessions st !! s = None →
  forallb (λ ev, negb (is_res_close ev)) sch = true →
  let t := next_transport st in
  let st1 := step st (Post (Some s)) in
  let st2 := run sch st1 in
  let st3 := step st2 (Post (Some s)) in
  trace st1 = trace st ++ [NewTransport t (Some s); SessionsSet s t; ServerConnect server t]
  ∧ sessions st1 !! s = Some {| transport := t |}
  ∧ reqs st1 !! length (reqs st) =
      Some {| pc := AwaitConnectStateful {| transport := t |} s; on_close := [] |}
  ∧ sessions st2 !! s = Some {| transport := t |}
  ∧ trace st3 = trace st2 ++ [HandleRequest t (length (reqs st2))]
  ∧ next_transport st3 = next_transport st2
  ∧ sessions st3 = sessions st2.
Proof.
  intros Hs Hnone Hsch t st1 st2 st3.
  assert (sessions st1 !! s = Some {| transport := t |}) as H1.
  { subst st1. simpl. rewrite post_create by done. simpl. apply lookup_insert_eq. }
  assert (sessions st2 !! s = Some {| transport := t |}) as H2
    by (by apply entry_kept_run).
  repeat split; try done.
  - subst st1. simpl. by rewrite post_create.
  - subst st1. simpl. rewrite post_create by done. simpl.
    by rewrite lookup_app_r, Nat.sub_diag.
  - subst st3. simpl. by rewrite (post_reuse s {| transport := t |}).
  - subst st3. simpl. by rewrite (post_reuse s {| transport := t |}).
  - subst st3. simpl. by rewrite (post_reuse s {| transport := t |}).
Qed.

Lemma insert_precedes_bind_witness :
  let st1 := step init (Post (Some "abc")) in
  let st2 := run [Post None; Post (Some "abc")] st1 in
  trace st1 = [NewTransport 0 (Some "abc"); SessionsSet "abc" 0; ServerConnect server 0]
  ∧ sessions st2 !! "abc" = Some {| transport := 0 |}
  ∧ trace (step st2 (Post (Some "abc"))) = trace st2 ++ [HandleRequest 0 3].
Proof.
  pose proof (insert_precedes_bind init "abc" [Post None; Post (Some "abc")])
    as H.
  destruct H as (H1 & _ & _ & H4 & H5 & _); [done|done|done|].
  split; [exact H1|]. split; [exact H4|exact H5].
Defined.

(** C2: a request whose session id is in the registry is routed to the
    transport stored there: nothing is created, [server.connect] is not
    called again, the registry is the same map.  Over any schedule without
    a [close] event in which some request carries the id, exactly one
    transport is created for the id and the id is registered once. *)
Theorem present_session_is_reused (st : State) (s : string) (session : SessionRecord)
    (sch : list Event) :
  s ≠ "" → sessions st !! s = Some session →
  forallb (λ ev, negb (is_res_close ev)) sch = true →
  Post (Some s) ∈ sch →
  (let st' := step st (Post (Some s)) in
   sessions st' = sessions st
   ∧ next_transport st' = next_transport st
   ∧ trace st' = trace st ++ [HandleRequest (transport session) (length (reqs st))]
   ∧ reqs st' = reqs st ++ [{| pc := AwaitHandleRequest (transport session);
                               on_close := [] |}])
  ∧ created_for s (trace (run sch init)) = 1
  ∧ count (is_set_of s) (trace (run sch init)) = 1
  ∧ in_registry s (run sch init) = 1.
Proof.
  intros Hs Hl Hsch Hin. split.
  - simpl. by rewrite (post_reuse s session).
  - destruct (balanced_run sch s) as [Hc Hset].
    pose proof (no_delete_run sch Hsch s) as Hdel.
    destruct (posted_registered sch init s Hs Hsch Hin) as [x Hx].
    assert (in_registry s (run sch init) = 1) as Hreg
      by (unfold in_registry; by rewrite Hx).
    lia.
Qed.

Lemma present_session_is_reused_witness :
  let st := run [Post (Some "abc"); ConnectSettled 0 true] init in
  let sch := [Post (Some "abc"); ConnectSettled 0 true; Post (Some "abc");
              HandleRequestSettled 0 true; Post (Some "abc")] in
  trace (step st (Post (Some "abc"))) = trace st ++ [HandleRequest 0 1]
  ∧ created_for "abc" (trace (run sch init)) = 1
  ∧ in_registry "abc" (run sch init) = 1.
Proof.
  intros st sch.
  destruct (present_session_is_reused st "abc" {| transport := 0 |} sch)
    as ((_ & _ & H3 & _) & H4 & _ & H6).
  - done.
  - reflexivity.
  - reflexivity.
  - apply list_elem_of_here.
  - split; [exact H3|]. split; [exact H4|exact H6].
Defined.




(** C8: a request without session id gets a new transport made without a
    session id generator; the listener that closes it is registered on the
    response before [server.connect] is even called, so a [close] event of
    that response calls [transport.close()] whatever happened in between
    (connect or handleRequest resolved, rejected, or still pending); and
    the registry is the same map after each segment of the request and
    after its [close] event.  A server that only ever saw such requests has
    an empty registry. *)
Theorem stateless_request_is_disposable (st : State) (q : option string)
    (sch sch0 : list Event) (ok1 ok2 : bool) :
  js_not q = true →
  forallb is_stateless_or_settle sch0 = true →
  let r := length (reqs st) in
  let t := next_transport st in
  let st1 := step st (Post q) in
  let st2 := run sch st1 in
  trace st1 = trace st ++ [NewTransport t None; ResOn r (CloseTransport t);
                           ServerConnect server t]
  ∧ sessions st1 = sessions st
  ∧ sessions (run [ConnectSettled r ok1; HandleRequestSettled r ok2; ResClose r] st1)
    = sessions st
  ∧ trace (step st2 (ResClose r)) = trace st2 ++ [TransportClose t]
  ∧ sessions (step st2 (ResClose r)) = sessions st2
  ∧ sessions (run sch0 init) = ∅.
Proof.
  intros Hq Hsch0 r t st1 st2.
  assert (listeners_fixed r [CloseTransport t] st1) as Hfix1.
  { subst st1. simpl. rewrite post_stateless by done.
    eexists. split; [simpl; by rewrite lookup_app_r, Nat.sub_diag|done]. }
  assert (∀ sch', res_close r (run sch' st1) =
                  emit [TransportClose t] (run sch' st1)) as Hclose.
  { intros sch'. rewrite (res_close_fixed r [CloseTransport t]); [done|].
    by apply listeners_fixed_run. }
  repeat split.
  - subst st1. simpl. by rewrite post_stateless.
  - subst st1. simpl. by rewrite post_stateless.
  - change (run [ConnectSettled r ok1; HandleRequestSettled r ok2; ResClose r] st1)
      with (res_close r (run [ConnectSettled r ok1; HandleRequestSettled r ok2] st1)).
    rewrite Hclose. simpl.
    rewrite (proj1 (handle_request_settled_frame _ _ _)).
    rewrite (proj1 (connect_settled_sessions _ _ _)).
    subst st1. simpl. by rewrite post_stateless.
  - subst st2. simpl. by rewrite Hclose.
  - subst st2. simpl. by rewrite Hclose.
  - apply (run_ind_on is_stateless_or_settle (λ st', sessions st' = ∅));
      [done| |done].
    intros st' ev Hev He. destruct ev as [q'|r' ok|r' ok|r']; simpl in *.
    + by rewrite post_stateless.
    + by rewrite (proj1 (connect_settled_sessions _ _ _)).
    + by rewrite (proj1 (handle_request_settled_frame _ _ _)).
    + unfold res_close. destruct (reqs st' !! r') as [rq|]; [|done].
      rewrite run_listeners_sessions, He.
      generalize (deleted_ids (on_close rq)). intros ids.
      induction ids as [|i ids IH]; [done|]. simpl. by rewrite delete_empty.
Qed.

Lemma stateless_request_is_disposable_witness :
  let st1 := step init (Post None) in
  let st2 := run [ConnectSettled 0 false] st1 in
  trace st1 = [NewTransport 0 None; ResOn 0 (CloseTransport 0); ServerConnect server 0]
  ∧ trace (step st2 (ResClose 0)) = trace st2 ++ [TransportClose 0]
  ∧ sessions (run [Post None; ConnectSettled 0 true; Post (Some ""); ResClose 0] init) = ∅.
Proof.
  intros st1 st2.
  destruct (stateless_request_is_disposable init None [ConnectSettled 0 false]
              [Post None; ConnectSettled 0 true; Post (Some ""); ResClose 0]
              true true)
    as (H1 & _ & _ & H4 & _ & H6).
  - reflexivity.
  - reflexivity.
  - split; [exact H1|]. split; [exact H4|exact H6].
Defined.

(** ** Teardown on [close] *)

(** C1, the claim as the spec words it, at a concrete schedule: a session
    is created and bound, then the [close] event of its response fires
    twice.  [transport.close()] has then been called twice on the session's
    transport, not exactly once: the listener is attached with [res.on] and
    runs at every emission. *)
Lemma close_fired_twice_closes_twice :
  let st := run [Post (Some "abc"); ConnectSettled 0 true; ResClose 0; ResClose 0] init in
  close_calls 0 (trace st) = 2 ∧ close_calls 0 (trace st) ≠ 1.
Proof. by vm_compute. Qed.

(** C1, amended: when the creation branch ran for a session id and its
    [server.connect] resolved, whatever else happened while the connect was
    pending, the handler registers its listener on that response and drives
    the request; from then on, at every [close] event of that response
    [transport.close()] is called on the session's transport and then
    [sessions.delete(sessionId)], in this order, and the id is absent
    afterwards; each firing adds one call of [close] (two firings, two
    calls); a later request with the id finds it absent and creates a
    transport with a new identity, so the closed one is not driven again. *)
Theorem close_event_tears_down (st : State) (s : string) (sch1 sch2 : list Event) :
  s ≠ "" → sessions st !! s = None →
  forallb (λ ev, negb (is_connect_settled_of (length (reqs st)) ev)) sch1 = true →
  let r := length (reqs st) in
  let t := next_transport st in
  let st0 := run sch1 (step st (Post (Some s))) in
  let stb := step st0 (ConnectSettled r true) in
  let st1 := run sch2 stb in
  let st2 := step st1 (ResClose r) in
  let st3 := step st2 (ResClose r) in
  let st4 := step st2 (Post (Some s)) in
  trace stb = trace st0 ++ [ResOn r (CloseAndDelete t s); HandleRequest t r]
  ∧ reqs stb !! r =
      Some {| pc := AwaitHandleRequest t; on_close := [CloseAndDelete t s] |}
  ∧ trace st2 = trace st1 ++
      [TransportClose t; SessionsDelete s (bool_decide (is_Some (sessions st1 !! s)))]
  ∧ sessions st2 = delete s (sessions st1)
  ∧ sessions st2 !! s = None
  ∧ close_calls t (trace st2) = S (close_calls t (trace st1))
  ∧ trace st3 = trace st2 ++ [TransportClose t; SessionsDelete s false]
  ∧ close_calls t (trace st3) = S (S (close_calls t (trace st1)))
  ∧ t < next_transport st2
  ∧ trace st4 = trace st2 ++
      [NewTransport (next_transport st2) (Some s);
       SessionsSet s (next_transport st2);
       ServerConnect server (next_transport st2)]
  ∧ sessions st4 !! s = Some {| transport := next_transport st2 |}.
Proof.
  intros Hs Hnone Hsch1 r t st0 stb st1 st2 st3 st4.
  destruct (post_create_pending st s Hs Hnone) as (Hp & Hnext & _).
  fold r t in Hp, Hnext.
  assert (reqs st0 !! r =
            Some {| pc := AwaitConnectStateful {| transport := t |} s;
                    on_close := [] |}) as H0
    by (by apply pending_kept_run).
  assert (r < length (reqs st0)) as Hlt by (by eapply lookup_lt_Some).
  assert (stb = set_req r {| pc := AwaitHandleRequest t;
                             on_close := [CloseAndDelete t s] |}
                  (emit [ResOn r (CloseAndDelete t s); HandleRequest t r] st0))
    as Hb by exact (connect_resolved_stateful st0 r t s H0).
  assert (reqs stb !! r =
            Some {| pc := AwaitHandleRequest t;
                    on_close := [CloseAndDelete t s] |}) as Hrb.
  { rewrite Hb. simpl. by apply list_lookup_insert_eq. }
  assert (listeners_fixed r [CloseAndDelete t s] st1) as Hfix1.
  { apply listeners_fixed_run. by eexists. }
  assert (S t ≤ next_transport st1) as Hle.
  { rewrite <- Hnext. etrans; [apply (run_next_transport_mono sch1)|].
    fold st0. etrans; [apply (step_next_transport_mono st0 (ConnectSettled r true))|].
    apply run_next_transport_mono. }
  assert (st2 = foldl run_listener st1 [CloseAndDelete t s]) as H2
    by exact (res_close_fixed r _ st1 Hfix1).
  rewrite close_and_delete in H2.
  assert (listeners_fixed r [CloseAndDelete t s] st2) as Hfix2
    by (by apply listeners_fixed_step).
  assert (sessions st2 !! s = None) as Hgone
    by (rewrite H2; simpl; apply lookup_delete_eq).
  assert (st3 = foldl run_listener st2 [CloseAndDelete t s]) as H3
    by exact (res_close_fixed r _ st2 Hfix2).
  rewrite close_and_delete, Hgone in H3.
  assert (close_calls t (trace st2) = S (close_calls t (trace st1))) as Hc2.
  { rewrite H2. unfold close_calls. simpl. rewrite count_app. simpl.
    rewrite bool_decide_eq_true_2 by done. lia. }
  split; [by rewrite Hb|]. split; [done|].
  repeat split; try done.
  - by rewrite H2.
  - by rewrite H2.
  - by rewrite H3.
  - rewrite H3. unfold close_calls in *. simpl. rewrite count_app. simpl.
    rewrite bool_decide_eq_true_2 by done. lia.
  - rewrite H2. simpl. lia.
  - subst st4. simpl. by rewrite post_create.
  - subst st4. simpl. rewrite post_create by done. simpl. apply lookup_insert_eq.
Qed.

Lemma close_event_tears_down_witness :
  let st0 := run [Post (Some "abc"); ResClose 0; Post None]
               (step init (Post (Some "abc"))) in
  let stb := step st0 (ConnectSettled 0 true) in
  let st1 := run [Post (Some "abc")] stb in
  let st2 := step st1 (ResClose 0) in
  trace stb = trace st0 ++ [ResOn 0 (CloseAndDelete 0 "abc"); HandleRequest 0 0]
  ∧ trace st2 = trace st1 ++ [TransportClose 0; SessionsDelete "abc" true]
  ∧ sessions st2 !! "abc" = None
  ∧ close_calls 0 (trace (step st2 (ResClose 0))) = 2
  ∧ sessions (step st2 (Post (Some "abc"))) !! "abc" = Some {| transport := 2 |}.
Proof.
  intros st0 stb st1 st2.
  destruct (close_event_tears_down init "abc"
              [Post (Some "abc"); ResClose 0; Post None] [Post (Some "abc")])
    as (H1 & _ & H3 & _ & H5 & _ & _ & H8 & _ & _ & H11).
  - done.
  - reflexivity.
  - reflexivity.
  - split; [exact H1|]. split; [exact H3|]. split; [exact H5|].
    split; [exact H8|exact H11].
Defined.

(** A second firing that comes after the id was taken again deletes the new
    session's entry, although it closes the old transport. *)
Example stale_listener_deletes_new_entry :
  let st := run [Post (Some "abc"); ConnectSettled 0 true; ResClose 0;
                 Post (Some "abc"); ResClose 0] init in
  sessions st !! "abc" = None
  ∧ close_calls 0 (trace st) = 2 ∧ close_calls 1 (trace st) = 0.
Proof. by vm_compute. Qed.

(** ** Bind failure in the creation branch *)

(** C4, at the failing input: a first request for "abc" whose
    [server.connect] rejects.  The entry stored before the call is still in
    the registry, [transport.close()] was never called, and neither changes
    when the connection closes: no listener was registered yet.  The
    stateless branch registers its listener before [await server.connect];
    this branch does so only after it. *)
Lemma bind_failure_leaves_entry :
  let st := run [Post (Some "abc"); ConnectSettled 0 false] init in
  sessions st !! "abc" = Some {| transport := 0 |}
  ∧ close_calls 0 (trace st) = 0
  ∧ sessions (step st (ResClose 0)) !! "abc" = Some {| transport := 0 |}
  ∧ close_calls 0 (trace (step st (ResClose 0))) = 0.
Proof. by vm_compute. Qed.

(** C4, what the code does when [server.connect] rejects in the creation
    branch, whatever else ran while the connect was pending: the activation
    ends rejected at that [await] and nothing else changes, so no listener
    is registered and the request is not driven; the [close] event of that
    response changes nothing at any later time; and as long as no [close]
    event of another response removes it, the entry stored before the call
    stays in the registry with its transport not closed, and a later
    request with the id is routed to that transport. *)
Theorem bind_failure_keeps_entry (st : State) (s : string) (sch1 sch2 sch3 : list Event) :
  s ≠ "" → sessions st !! s = None →
  forallb (quiet_for (length (reqs st))) sch1 = true →
  forallb (λ ev, negb (is_res_close ev)) sch2 = true →
  let r := length (reqs st) in
  let t := next_transport st in
  let st0 := run sch1 (step st (Post (Some s))) in
  let stb := step st0 (ConnectSettled r false) in
  let st2 := run sch2 stb in
  trace (step st (Post (Some s))) =
    trace st ++ [NewTransport t (Some s); SessionsSet s t; ServerConnect server t]
  ∧ stb = set_req r {| pc := Rejected; on_close := [] |} st0
  ∧ reqs stb !! r = Some {| pc := Rejected; on_close := [] |}
  ∧ trace stb = trace st0
  ∧ sessions stb = sessions st0
  ∧ step (run sch3 stb) (ResClose r) = run sch3 stb
  ∧ sessions st2 !! s = Some {| transport := t |}
  ∧ close_calls t (trace st2) = close_calls t (trace st)
  ∧ trace (step st2 (Post (Some s))) =
      trace st2 ++ [HandleRequest t (length (reqs st2))]
  ∧ next_transport (step st2 (Post (Some s))) = next_transport st2.
Proof.
  intros Hs Hnone Hsch1 Hsch2 r t st0 stb st2.
  destruct (quiet_for_split _ _ Hsch1) as [Hnc1 Hns1].
  destruct (post_create_pending st s Hs Hnone) as (Hp & Hnext & Hlp).
  fold r t in Hp, Hnext, Hlp.
  assert (reqs st0 !! r =
            Some {| pc := AwaitConnectStateful {| transport := t |} s;
                    on_close := [] |}) as H0
    by (by apply pending_kept_run).
  assert (r < length (reqs st0)) as Hlt by (by eapply lookup_lt_Some).
  assert (stb = set_req r {| pc := Rejected; on_close := [] |} st0) as Hb
    by exact (connect_rejected st0 r _ H0 eq_refl).
  assert (reqs stb !! r = Some {| pc := Rejected; on_close := [] |}) as Hrb.
  { rewrite Hb. simpl. by apply list_lookup_insert_eq. }
  assert (listeners_fixed r [] stb) as Hfix by (by eexists).
  assert (sessions st0 !! s = Some {| transport := t |}) as Hl0
    by (by apply entry_kept_run).
  assert (sessions st2 !! s = Some {| transport := t |}) as Hl2.
  { apply entry_kept_run; [done|]. by rewrite Hb. }
  split; [simpl; by rewrite post_create|].
  split; [done|]. split; [done|]. split; [by rewrite Hb|].
  split; [by rewrite Hb|]. split; [|split; [done|split; [|split]]].
  - exact (res_close_fixed r [] _ (listeners_fixed_run r [] sch3 stb Hfix)).
  - subst st2. rewrite close_calls_kept_run by done.
    rewrite Hb. simpl. fold (close_calls t (trace st0)).
    subst st0. rewrite close_calls_kept_run by done.
    by rewrite close_calls_kept.
  - simpl. by rewrite (post_reuse s {| transport := t |}).
  - simpl. by rewrite (post_reuse s {| transport := t |}).
Qed.

Lemma bind_failure_keeps_entry_witness :
  let st0 := run [Post (Some "abc"); Post None] (step init (Post (Some "abc"))) in
  let stb := step st0 (ConnectSettled 0 false) in
  let st2 := run [HandleRequestSettled 1 true] stb in
  reqs stb !! 0 = Some {| pc := Rejected; on_close := [] |}
  ∧ trace stb = trace st0
  ∧ step (run [Post (Some "abc")] stb) (ResClose 0) = run [Post (Some "abc")] stb
  ∧ sessions st2 !! "abc" = Some {| transport := 0 |}
  ∧ close_calls 0 (trace st2) = 0.
Proof.
  intros st0 stb st2.
  destruct (bind_failure_keeps_entry init "abc" [Post (Some "abc"); Post None]
              [HandleRequestSettled 1 true] [Post (Some "abc")])
    as (_ & _ & H3 & H4 & _ & H6 & H7 & H8 & _).
  - done.
  - reflexivity.
  - reflexivity.
  - reflexivity.
  - split; [exact H3|]. split; [exact H4|]. split; [exact H6|].
    split; [exact H7|exact H8].
Defined.

(** ** The engine *)

(** C5, the claim as the spec words it, at a concrete schedule: two
    requests without session id.  Their transports are two objects, and
    both are connected to one and the same engine, the module-level
    [server]. *)
Lemma stateless_requests_share_engine :
  let st := run [Post None; Post None] init in
  reqs st = [{| pc := AwaitConnectStateless 0; on_close := [CloseTransport 0] |};
             {| pc := AwaitConnectStateless 1; on_close := [CloseTransport 1] |}]
  ∧ engine_of 0 (trace st) = Some server
  ∧ engine_of 1 (trace st) = Some server
  ∧ engine_of 0 (trace st) = engine_of 1 (trace st).
Proof. by vm_compute. Qed.

(** C5, amended: every request without session id gets a transport of its
    own, one that no earlier call has created or used, and the handler
    connects the module-level [server] to it; every [server.connect] the
    module ever issues is on that one engine. *)
Theorem stateless_fresh_transport_shared_engine (sch : list Event) (q : option string) :
  js_not q = true →
  let st := run sch init in
  let t := next_transport st in
  let st' := step st (Post q) in
  trace st' = trace st ++ [NewTransport t None;
                           ResOn (length (reqs st)) (CloseTransport t);
                           ServerConnect server t]
  ∧ (∀ g, NewTransport t g ∉ trace st)
  ∧ (∀ e, ServerConnect e t ∉ trace st)
  ∧ (∀ r, HandleRequest t r ∉ trace st)
  ∧ engine_of t (trace st') = Some server
  ∧ (∀ e t', ServerConnect e t' ∈ trace st' → e = server).
Proof.
  intros Hq st t st'.
  assert (trace st' = trace st ++ [NewTransport t None;
                           ResOn (length (reqs st)) (CloseTransport t);
                           ServerConnect server t]) as Htr.
  { subst st'. simpl. by rewrite post_stateless. }
  pose proof (wf_trace _ (wf_run sch)) as Hok. fold st t in Hok.
  assert (∀ o, o ∈ trace st → op_ok t o) as Hin
    by (intros o Ho; by eapply Forall_forall in Hok).
  assert (∀ tr, (∀ e, ServerConnect e t ∉ tr) → engine_of t tr = None) as Hnone.
  { induction tr as [|o tr IH]; intros Hno; [done|].
    assert (engine_of t tr = None) as Htl.
    { apply IH. intros e He. apply (Hno e). by right. }
    destruct o; simpl; try done. case_bool_decide; [|done]. subst.
    exfalso. apply (Hno e). by left. }
  assert (∀ tr1 tr2, engine_of t tr1 = None →
            engine_of t (tr1 ++ tr2) = engine_of t tr2) as Happ.
  { induction tr1 as [|o tr1 IH]; intros tr2 H1; [done|].
    destruct o; simpl in *; try (by apply IH).
    case_bool_decide; [done|by apply IH]. }
  assert (∀ e, ServerConnect e t ∉ trace st) as Hnoc.
  { intros e He. apply Hin in He. simpl in He. lia. }
  repeat split; try done.
  - intros g Hg. apply Hin in Hg. simpl in Hg. lia.
  - intros r Hr. apply Hin in Hr. simpl in Hr. lia.
  - rewrite Htr, Happ by (by apply Hnone). simpl.
    by rewrite bool_decide_eq_true_2.
  - intros e t' He. pose proof (wf_trace _ (wf_step st (Post q) (wf_run sch))) as Hok'.
    fold st' in Hok'. eapply Forall_forall in Hok'; [|done]. by destruct Hok'.
Qed.

Lemma stateless_fresh_transport_shared_engine_witness :
  let st := run [Post None; ConnectSettled 0 true] init in
  trace (step st (Post None)) =
    trace st ++ [NewTransport 1 None; ResOn 1 (CloseTransport 1); ServerConnect server 1]
  ∧ engine_of 1 (trace (step st (Post None))) = Some server.
Proof.
  intros st.
  destruct (stateless_fresh_transport_shared_engine [Post None; ConnectSettled 0 true] None)
    as (H1 & _ & _ & _ & H5 & _).
  - reflexivity.
  - split; [exact H1|exact H5].
Defined.

(** ** The registry *)

(** C3: in every reachable state and for every session id, the
    [sessions.set] calls made for the id are as many as the deletions that
    removed it, plus one exactly when the id is registered now; so [set] is
    never called for an id that is registered, and an id has at most one
    record at a time.  A step changes the registry in two cases only: the
    creation branch of the handler's first segment inserts the absent id,
    and a [close] event deletes the ids of the listeners registered on its
    response.  Every other step leaves the map as it is. *)
Theorem registry_single_entry_and_mutators (sch : list Event) (ev : Event) (s : string) :
  let st := run sch init in
  let st' := step st ev in
  count (is_set_of s) (trace st) = count (is_removal_of s) (trace st) + in_registry s st
  ∧ in_registry s st ≤ 1
  ∧ (sessions st' = sessions st
     ∨ (∃ s', ev = Post (Some s') ∧ s' ≠ "" ∧ sessions st !! s' = None
          ∧ sessions st' = <[s' := {| transport := next_transport st |}]> (sessions st))
     ∨ (∃ r rq, ev = ResClose r ∧ reqs st !! r = Some rq
          ∧ sessions st' = foldl (λ m k, delete k m) (sessions st)
                             (deleted_ids (on_close rq)))).
Proof.
  intros st st'. destruct (balanced_run sch s) as [Hc Hset]. fold st in Hc, Hset.
  split; [lia|]. split.
  { unfold in_registry. destruct (sessions st !! s); lia. }
  subst st'. destruct ev as [q|r ok|r ok|r]; simpl.
  - post_cases q st; simpl; [by left|by left|].
    right. left. by exists s'.
  - left. apply connect_settled_sessions.
  - left. apply handle_request_settled_frame.
  - unfold res_close. destruct (reqs st !! r) as [rq|] eqn:Hr; [|by left].
    right. right. exists r, rq. by rewrite run_listeners_sessions.
Qed.

(** ** First contact under interleaving *)

(** C9: the handler's [sessions.get] and [sessions.set] are in one segment,
    with no [await] between them, so no other segment runs in between.
    Hence, however the segments of any number of requests are interleaved,
    the transports created for a session id are as many as the removals of
    the id plus one if it is registered; and in a schedule without [close]
    events at most one transport is created and at most one [set] is made
    for the id: two occurrences of a creation for the id in the trace are
    the same occurrence. *)
Theorem concurrent_first_contact_creates_once (sch : list Event) (s : string) :
  forallb (λ ev, negb (is_res_close ev)) sch = true →
  let st := run sch init in
  created_for s (trace st) = in_registry s st
  ∧ created_for s (trace st) ≤ 1
  ∧ count (is_set_of s) (trace st) ≤ 1
  ∧ (∀ i j t t', trace st !! i = Some (NewTransport t (Some s)) →
                 trace st !! j = Some (NewTransport t' (Some s)) →
                 i = j ∧ t = t')
  ∧ (∀ sch', created_for s (trace (run sch' init)) =
             count (is_removal_of s) (trace (run sch' init))
             + in_registry s (run sch' init)).
Proof.
  intros Hsch st. destruct (balanced_run sch s) as [Hc Hset]. fold st in Hc, Hset.
  pose proof (no_delete_run sch Hsch s) as Hdel. fold st in Hdel.
  assert (in_registry s st ≤ 1) as Hle
    by (unfold in_registry; destruct (sessions st !! s); lia).
  split; [lia|]. split; [lia|]. split; [lia|]. split.
  - intros i j t t' Hi Hj.
    assert (i = j) as ->.
    { eapply (count_le_one_unique (is_creation_for s) (trace st)); try done.
      + unfold created_for in Hc. lia.
      + simpl. by apply bool_decide_eq_true.
      + simpl. by apply bool_decide_eq_true. }
    split; [done|]. congruence.
  - intros sch'. apply (balanced_run sch' s).
Qed.

Lemma concurrent_first_contact_creates_once_witness :
  let sch := [Post (Some "abc"); Post (Some "abc"); Post (Some "abc");
              ConnectSettled 0 true; HandleRequestSettled 1 true] in
  created_for "abc" (trace (run sch init)) ≤ 1
  ∧ count (is_set_of "abc") (trace (run sch init)) ≤ 1.
Proof.
  intros sch.
  destruct (concurrent_first_contact_creates_once sch "abc")
    as (_ & H2 & H3 & _).
  - reflexivity.
  - split; [exact H2|exact H3].
Defined.

(** * Further properties of the handler *)

(** ** What listeners do to the trace *)

Lemma run_listeners_count (p : Op → bool) (ls : list Listener) (st : State) :
  (∀ o, is_teardown o = true → p o = false) →
  count p (trace (foldl run_listener st ls)) = count p (trace st).
Proof.
  intros Hp. revert st. induction ls as [|l ls IH]; intros st; [done|].
  simpl. rewrite IH. destruct l as [t|t s]; simpl; rewrite count_app; simpl.
  - rewrite (Hp (TransportClose t)) by done. lia.
  - rewrite (Hp (TransportClose t)), (Hp (SessionsDelete s _)) by done. lia.
Qed.

Lemma run_listeners_trace_incl (ls : list Listener) (st : State) (o : Op) :
  o ∈ trace st → o ∈ trace (foldl run_listener st ls).
Proof.
  revert st. induction ls as [|l ls IH]; intros st Ho; [done|].
  simpl. apply IH. destruct l; simpl; apply elem_of_app; by left.
Qed.

Lemma run_listeners_trace_inv (ls : list Listener) (st : State) (o : Op) :
  o ∈ trace (foldl run_listener st ls) → is_teardown o = false → o ∈ trace st.
Proof.
  revert st. induction ls as [|l ls IH]; intros st Ho Hnt; [done|].
  simpl in Ho. apply IH in Ho; [|done].
  destruct l; simpl in Ho; apply elem_of_app in Ho as [Ho|Ho]; try done;
    set_unfold; destruct_or?; subst; done.
Qed.

Lemma run_listeners_lookup (ls : list Listener) (st : State) (s : string)
    (session : SessionRecord) :
  sessions (foldl run_listener st ls) !! s = Some session →
  sessions st !! s = Some session.
Proof.
  revert st. induction ls as [|l ls IH]; intros st Hl; [done|].
  simpl in Hl. apply IH in Hl. destruct l as [t|t s']; simpl in Hl; [done|].
  by apply lookup_delete_Some in Hl as [_ Hl].
Qed.

(** ** One connect per transport, one drive per request *)

Lemma connected_once_step (st : State) (ev : Event) :
  connected_once st → connected_once (step st ev).
Proof.
  intros Hc. destruct ev as [q|r ok|r ok|r]; simpl.
  - assert (∀ g ops t,
      count (is_new_of t) ops = 0 → count (is_connect_of t) ops = 0 →
      count (is_new_of t)
        (trace st ++ NewTransport (next_transport st) g :: ops ++
           [ServerConnect server (next_transport st)]) =
        (if bool_decide (t < S (next_transport st)) then 1 else 0)
      ∧ count (is_connect_of t)
          (trace st ++ NewTransport (next_transport st) g :: ops ++
             [ServerConnect server (next_transport st)]) =
        count (is_new_of t)
          (trace st ++ NewTransport (next_transport st) g :: ops ++
             [ServerConnect server (next_transport st)])) as Hnew.
    { intros g ops t Ho1 Ho2. destruct (Hc t) as [H1 H2].
      rewrite !count_app, !count_cons, !count_app. simpl.
      rewrite Ho1, Ho2, H2, H1.
      repeat case_bool_decide; lia. }
    post_cases q st; intros t; simpl.
    + apply (Hnew None [ResOn (length (reqs st)) (CloseTransport (next_transport st))]);
        done.
    + destruct (Hc t) as [H1 H2]. rewrite !count_app. simpl. lia.
    + apply (Hnew (Some s') [SessionsSet s' (next_transport st)]); done.
  - unfold connect_settled. destruct (reqs st !! r) as [rq|]; [|done].
    destruct (pc rq); try done; destruct ok; try done;
      intros t'; destruct (Hc t') as [H1 H2]; simpl;
      rewrite !count_app; simpl; lia.
  - unfold handle_request_settled. destruct (reqs st !! r) as [rq|]; [|done].
    by destruct (pc rq).
  - unfold res_close. destruct (reqs st !! r) as [rq|]; [|done].
    intros t. destruct (Hc t) as [H1 H2].
    rewrite run_listeners_next_transport.
    rewrite !run_listeners_count; [done| |]; by intros [].
Qed.

Lemma connected_once_run (sch : list Event) : connected_once (run sch init).
Proof.
  apply run_ind; [|intros st ev; apply connected_once_step].
  intros t. split; [|done]. unfold init at 2. cbn [next_transport].
  case_bool_decide; [lia|done].
Qed.

Lemma driven_once_append (st st' : State) (rq : Req) (ops : list Op) :
  reqs st' = reqs st ++ [rq] → trace st' = trace st ++ ops →
  (∀ r, r ≠ length (reqs st) →
     count (is_handle_of r) ops = 0 ∧ count (is_res_on_of r) ops = 0) →
  count (is_handle_of (length (reqs st))) ops ≤ 1 →
  count (is_res_on_of (length (reqs st))) ops ≤ 1 →
  match pc rq with
  | AwaitConnectStateless _ => count (is_handle_of (length (reqs st))) ops = 0
  | AwaitConnectStateful _ _ =>
      count (is_handle_of (length (reqs st))) ops = 0
      ∧ count (is_res_on_of (length (reqs st))) ops = 0
  | _ => True
  end →
  driven_once st → driven_once st'.
Proof.
  intros Hreqs Htr Hother Hh Hr Hpc Hd r. rewrite Hreqs, Htr, !count_app.
  destruct (Hd r) as (D1 & D2 & D3).
  destruct (decide (r = length (reqs st))) as [->|Hne].
  - rewrite lookup_ge_None_2 in D3 by lia. destruct D3 as [Z1 Z2].
    rewrite Z1, Z2. split; [lia|]. split; [lia|].
    rewrite lookup_app_r, Nat.sub_diag by lia. simpl.
    destruct (pc rq); try done; lia.
  - destruct (Hother r Hne) as [O1 O2]. rewrite O1, O2, !Nat.add_0_r.
    split; [done|]. split; [done|].
    destruct (decide (r < length (reqs st))) as [Hlt|Hge].
    + by rewrite lookup_app_l.
    + rewrite lookup_ge_None_2 in D3 by lia.
      rewrite lookup_ge_None_2; [done|]. rewrite length_app. simpl. lia.
Qed.

Lemma driven_once_update (st : State) (r0 : ReqId) (rq rq' : Req) (ops : list Op) :
  reqs st !! r0 = Some rq →
  (∀ r, r ≠ r0 → count (is_handle_of r) ops = 0 ∧ count (is_res_on_of r) ops = 0) →
  count (is_handle_of r0) (trace st) + count (is_handle_of r0) ops ≤ 1 →
  count (is_res_on_of r0) (trace st) + count (is_res_on_of r0) ops ≤ 1 →
  match pc rq' with
  | AwaitConnectStateless _ | AwaitConnectStateful _ _ => False
  | _ => True
  end →
  driven_once st → driven_once (set_req r0 rq' (emit ops st)).
Proof.
  intros Hl Hother Hh Hr Hpc Hd r. simpl. rewrite !count_app.
  destruct (Hd r) as (D1 & D2 & D3).
  assert (r0 < length (reqs st)) as Hlt by (by eapply lookup_lt_Some).
  destruct (decide (r = r0)) as [->|Hne].
  - split; [done|]. split; [done|].
    rewrite list_lookup_insert_eq by done. by destruct (pc rq').
  - destruct (Hother r Hne) as [O1 O2]. rewrite O1, O2, !Nat.add_0_r.
    split; [done|]. split; [done|]. by rewrite list_lookup_insert_ne.
Qed.

Lemma driven_once_step (st : State) (ev : Event) :
  driven_once st → driven_once (step st ev).
Proof.
  intros Hd.
  assert (∀ r rq rq', reqs st !! r = Some rq →
            match pc rq' with
            | AwaitConnectStateless _ | AwaitConnectStateful _ _ => False
            | _ => True
            end → driven_once (set_req r rq' st)) as Hquiet.
  { intros r rq rq' Hl Hpc. destruct (Hd r) as (D1 & D2 & _).
    pose proof (driven_once_update st r rq rq' [] Hl) as Hu.
    unfold emit in Hu. rewrite app_nil_r in Hu. simpl in Hu.
    apply Hu; try done; lia. }
  destruct ev as [q|r ok|r ok|r]; simpl.
  - post_cases q st;
      (eapply driven_once_append; [done|done| | | | |done]); simpl;
      try lia; try done;
      try (intros r Hr; repeat case_bool_decide; split; simpl; lia);
      repeat case_bool_decide; simpl; lia.
  - unfold connect_settled. destruct (reqs st !! r) as [rq|] eqn:Hl; [|done].
    destruct (Hd r) as (D1 & D2 & D3). rewrite Hl in D3.
    destruct (pc rq) as [t|session s|t| |] eqn:Hpc; try done; destruct ok;
      try (by eapply Hquiet);
      apply (driven_once_update st r rq); simpl; try done;
      try (intros r' Hr'; rewrite ?bool_decide_eq_false_2 by done; simpl; lia);
      repeat case_bool_decide; lia.
  - unfold handle_request_settled. destruct (reqs st !! r) as [rq|] eqn:Hl; [|done].
    destruct (pc rq) eqn:Hpc; try done.
    eapply Hquiet; [done|]. by destruct ok.
  - unfold res_close. destruct (reqs st !! r) as [rq|]; [|done].
    intros r'. destruct (Hd r') as (D1 & D2 & D3).
    rewrite run_listeners_reqs.
    rewrite !run_listeners_count by (by intros []). done.
Qed.

Lemma driven_once_run (sch : list Event) : driven_once (run sch init).
Proof.
  apply run_ind; [|intros st ev; apply driven_once_step].
  intros r. simpl. repeat split; lia.
Qed.

(** ** Who owns which transport *)

Lemma wf_in (st : State) (o : Op) :
  wf st → o ∈ trace st → op_ok (next_transport st) o.
Proof. intros [_ _ Ht] Ho. by eapply Forall_forall in Ht. Qed.

Lemma listener_created_mono (tr tr' : list Op) (l : Listener) :
  (∀ o, o ∈ tr → o ∈ tr') → listener_created tr l → listener_created tr' l.
Proof. intros Hincl. destruct l; simpl; apply Hincl. Qed.

Lemma req_linked_mono (st st' : State) (r : ReqId) (rq : Req) :
  (∀ o, o ∈ trace st → o ∈ trace st') → req_linked st r rq → req_linked st' r rq.
Proof.
  intros Hincl [Hls Hpc]. split.
  - intros l Hl. by apply Hincl, Hls.
  - destruct (pc rq); try done; [by apply Hincl|].
    destruct Hpc as [Hs Hn]. split; [done|by apply Hincl].
Qed.

Lemma linked_init : linked init.
Proof.
  split; simpl; intros; by set_unfold.
Qed.

Lemma linked_listeners (ls : list Listener) (st : State) :
  linked st → linked (foldl run_listener st ls).
Proof.
  intros [L1 L2 L3 L4 L5 L6].
  pose proof (run_listeners_trace_incl ls st) as Hincl.
  pose proof (run_listeners_trace_inv ls st) as Hinv.
  split.
  - intros t g g' H1 H2. apply Hinv in H1, H2; try done. by eapply L1.
  - intros s session Hl. apply run_listeners_lookup in Hl.
    destruct (L2 s session Hl) as [Hs Hn]. split; [done|by apply Hincl].
  - intros r rq Hl. rewrite run_listeners_reqs in Hl.
    eapply req_linked_mono; [apply Hincl|by apply L3].
  - intros r l H. apply Hinv in H; [|done]. rewrite run_listeners_reqs.
    destruct (L4 r l H) as [Hlt Hc]. split; [done|].
    by eapply listener_created_mono.
  - intros t r r' H1 H2. apply Hinv in H1, H2; try done. by eapply L5.
  - intros t r r' H1 H2. apply Hinv in H1, H2; try done. by eapply L6.
Qed.

(** Extending the trace by the calls of one segment keeps the links, as
    long as what is new is created under the next identity and what is
    driven is old. *)
Lemma linked_ext (st st' : State) (ops : list Op) :
  wf st → linked st →
  trace st' = trace st ++ ops →
  length (reqs st) ≤ length (reqs st') →
  (∀ r rq', reqs st' !! r = Some rq' → req_linked st' r rq') →
  (∀ s session, sessions st' !! s = Some session →
     sessions st !! s = Some session
     ∨ (s ≠ "" ∧ NewTransport (transport session) (Some s) ∈ ops)) →
  (∀ t g, NewTransport t g ∈ ops →
     t = next_transport st ∧ ∀ g', NewTransport t g' ∈ ops → g = g') →
  (∀ r l, ResOn r l ∈ ops →
     r < length (reqs st') ∧ listener_created (trace st') l
     ∧ match l with
       | CloseTransport t =>
           t = next_transport st ∧ ∀ r', ResOn r' (CloseTransport t) ∈ ops → r' = r
       | CloseAndDelete _ _ => True
       end) →
  (∀ t r', HandleRequest t r' ∈ ops →
     t < next_transport st ∧ ∀ r, ResOn r (CloseTransport t) ∈ trace st → r' = r) →
  linked st'.
Proof.
  intros Hwf [L1 L2 L3 L4 L5 L6] Htr Hlen Hreqs Hsess Hnew Hon Hdrive.
  assert (∀ o, o ∈ trace st → o ∈ trace st') as Hincl.
  { intros o Ho. rewrite Htr. apply elem_of_app. by left. }
  assert (∀ o, o ∈ trace st' → o ∈ trace st ∨ o ∈ ops) as Hsplit.
  { intros o Ho. rewrite Htr in Ho. by apply elem_of_app in Ho. }
  assert (∀ t g, NewTransport t g ∈ trace st → t < next_transport st) as Bnew
    by (intros t g H; apply (wf_in st _ Hwf H)).
  assert (∀ r t, ResOn r (CloseTransport t) ∈ trace st → t < next_transport st)
    as Bon by (intros r t H; apply (wf_in st _ Hwf H)).
  assert (∀ t r, HandleRequest t r ∈ trace st → t < next_transport st) as Bh
    by (intros t r H; apply (wf_in st _ Hwf H)).
  split.
  - intros t g g' H1 H2.
    destruct (Hsplit _ H1) as [O1|N1], (Hsplit _ H2) as [O2|N2].
    + by eapply L1.
    + apply Bnew in O1. apply Hnew in N2 as [-> _]. lia.
    + apply Bnew in O2. apply Hnew in N1 as [-> _]. lia.
    + apply Hnew in N1 as [_ N1]. by apply N1.
  - intros s session Hl. destruct (Hsess s session Hl) as [Ho|[Hs Hn]].
    + destruct (L2 s session Ho) as [Hs Hn]. split; [done|by apply Hincl].
    + split; [done|]. rewrite Htr. apply elem_of_app. by right.
  - done.
  - intros r l H. destruct (Hsplit _ H) as [O|N].
    + destruct (L4 r l O) as [Hlt Hc]. split; [lia|].
      by eapply listener_created_mono.
    + by destruct (Hon r l N) as (? & ? & _).
  - intros t r r' H1 H2.
    destruct (Hsplit _ H1) as [O1|N1], (Hsplit _ H2) as [O2|N2].
    + by eapply L5.
    + apply Bon in O1. destruct (Hon _ _ N2) as (_ & _ & -> & _). lia.
    + apply Bon in O2. destruct (Hon _ _ N1) as (_ & _ & -> & _). lia.
    + destruct (Hon _ _ N1) as (_ & _ & _ & Hu). symmetry. by apply Hu.
  - intros t r r' H1 H2.
    destruct (Hsplit _ H1) as [O1|N1], (Hsplit _ H2) as [O2|N2].
    + by eapply L6.
    + destruct (Hdrive _ _ N2) as [_ Hd]. by apply Hd.
    + apply Bh in O2. destruct (Hon _ _ N1) as (_ & _ & -> & _). lia.
    + destruct (Hdrive _ _ N2) as [Hlt _].
      destruct (Hon _ _ N1) as (_ & _ & -> & _). lia.
Qed.

Lemma lookup_snoc_Some {A} (l : list A) (x y : A) (i : nat) :
  (l ++ [x]) !! i = Some y → l !! i = Some y ∨ (i = length l ∧ y = x).
Proof.
  intros H. apply lookup_app_Some in H as [H|[Hge H]]; [by left|right].
  apply list_lookup_singleton_Some in H as [H0 ->]. split; [lia|done].
Qed.

Lemma linked_reqs_append (st st' : State) (rq : Req) :
  linked st → (∀ o, o ∈ trace st → o ∈ trace st') →
  reqs st' = reqs st ++ [rq] → req_linked st' (length (reqs st)) rq →
  ∀ r rq', reqs st' !! r = Some rq' → req_linked st' r rq'.
Proof.
  intros Hlk Hincl Hreqs Hnew r rq' Hl. rewrite Hreqs in Hl.
  apply lookup_snoc_Some in Hl as [Hl|[-> ->]]; [|done].
  eapply req_linked_mono; [done|]. by apply (lk_reqs st Hlk).
Qed.

Lemma linked_reqs_insert (st st' : State) (r0 : ReqId) (rq : Req) :
  linked st → (∀ o, o ∈ trace st → o ∈ trace st') →
  reqs st' = <[r0 := rq]> (reqs st) → req_linked st' r0 rq →
  ∀ r rq', reqs st' !! r = Some rq' → req_linked st' r rq'.
Proof.
  intros Hlk Hincl Hreqs Hnew r rq' Hl. rewrite Hreqs in Hl.
  apply list_lookup_insert_Some in Hl as [(-> & -> & _)|[Hne Hl]]; [done|].
  eapply req_linked_mono; [done|]. by apply (lk_reqs st Hlk).
Qed.

(** Membership in the few calls a segment issues. *)
Ltac in_list H :=
  repeat (apply elem_of_cons in H as [H|H]);
  try (by apply elem_of_nil in H); simplify_eq.

Ltac in_old := apply elem_of_app; left.

Ltac in_new :=
  apply elem_of_app; right;
  repeat first [apply list_elem_of_here | apply list_elem_of_further].

Lemma linked_step (st : State) (ev : Event) :
  wf st → linked st → linked (step st ev).
Proof.
  intros Hwf Hlk. pose proof Hlk as [L1 L2 L3 L4 L5 L6].
  assert (∀ t s, NewTransport t (Some s) ∈ trace st →
            ∀ r, ResOn r (CloseTransport t) ∈ trace st → False) as Hexcl.
  { intros t s Hn r Hr. destruct (L4 r _ Hr) as [_ Hc]. simpl in Hc.
    by pose proof (L1 t _ _ Hn Hc). }
  destruct ev as [q|r ok|r ok|r]; simpl.
  - post_cases q st.
    + eapply (linked_ext st _ [_; _; _]); try done.
      * simpl. rewrite length_app. simpl. lia.
      * eapply linked_reqs_append; [done| |done|].
        -- intros o Ho. simpl. by in_old.
        -- split; simpl; [intros l H; in_list H|]; in_new.
      * intros s session Hl. by left.
      * intros t g H. in_list H. split; [done|]. intros g' H. by in_list H.
      * intros r l H. simpl. rewrite length_app. simpl. in_list H.
        split; [lia|]. split; [in_new|].
        split; [done|]. intros r' H'. by in_list H'.
      * intros t r' H. in_list H.
    + pose proof (wf_sessions st Hwf s' session Hl) as Hlt. simpl in Hlt.
      destruct (L2 s' session Hl) as [_ Hn].
      eapply (linked_ext st _ [_]); try done.
      * simpl. rewrite length_app. simpl. lia.
      * eapply linked_reqs_append; [done| |done|].
        -- intros o Ho. simpl. by in_old.
        -- split; simpl; [|done]. intros l H. in_list H.
      * intros s session0 H. by left.
      * intros t g H. in_list H.
      * intros r l H. in_list H.
      * intros t r' H. in_list H.
        split; [done|]. intros r H. by destruct (Hexcl _ _ Hn _ H).
    + eapply (linked_ext st _ [_; _; _]); try done.
      * simpl. rewrite length_app. simpl. lia.
      * eapply linked_reqs_append; [done| |done|].
        -- intros o Ho. simpl. by in_old.
        -- split; simpl; [intros l H; in_list H|].
           split; [done|]. in_new.
      * intros s session H. simpl in H.
        apply lookup_insert_Some in H as [[<- <-]|[_ H]]; [right|by left].
        split; [done|]. simpl. apply list_elem_of_here.
      * intros t g H. in_list H. split; [done|]. intros g' H. by in_list H.
      * intros r l H. in_list H.
      * intros t r' H. in_list H.
  - unfold connect_settled. destruct (reqs st !! r) as [rq|] eqn:Hl; [|done].
    destruct (wf_req_lookup st r rq Hwf Hl) as [Hpcok _].
    destruct (L3 r rq Hl) as [Hls Hpcl].
    assert (r < length (reqs st)) as Hlt by (by eapply lookup_lt_Some).
    destruct (pc rq) as [t|session s|t| |] eqn:Hpc; try done;
      destruct ok; simpl in Hpcok, Hpcl.
    + eapply (linked_ext st _ [_]); try done.
      * simpl. by rewrite length_insert.
      * eapply linked_reqs_insert; [done| |done|].
        -- intros o Ho. simpl. by in_old.
        -- split; simpl; [|done]. intros l H. in_old. by apply Hls.
      * intros s session H. by left.
      * intros t' g H. in_list H.
      * intros r' l H. in_list H.
      * intros t' r' H. in_list H.
        split; [done|]. intros r' H. by eapply L5.
    + eapply (linked_ext st _ []); try done.
      * simpl. by rewrite app_nil_r.
      * simpl. by rewrite length_insert.
      * eapply linked_reqs_insert; [done| |done|]; [done|].
        split; simpl; [|done]. intros l H. by apply Hls.
      * intros s session H. by left.
      * intros t' g H. in_list H.
      * intros r' l H. in_list H.
      * intros t' r' H. in_list H.
    + destruct Hpcl as [Hs Hn].
      eapply (linked_ext st _ [_; _]); try done.
      * simpl. by rewrite length_insert.
      * eapply linked_reqs_insert; [done| |done|].
        -- intros o Ho. simpl. by in_old.
        -- split; simpl; [|done]. intros l H.
           apply elem_of_app in H as [H|H].
           ++ in_old. by apply Hls.
           ++ in_list H. in_new.
      * intros s0 session0 H. by left.
      * intros t' g H. in_list H.
      * intros r' l H. simpl. rewrite length_insert. in_list H.
        split; [done|]. split; [|done]. simpl. by in_old.
      * intros t' r' H. in_list H.
        split; [done|]. intros r' H. by destruct (Hexcl _ _ Hn _ H).
    + eapply (linked_ext st _ []); try done.
      * simpl. by rewrite app_nil_r.
      * simpl. by rewrite length_insert.
      * eapply linked_reqs_insert; [done| |done|]; [done|].
        split; simpl; [|done]. intros l H. by apply Hls.
      * intros s0 session0 H. by left.
      * intros t' g H. in_list H.
      * intros r' l H. in_list H.
      * intros t' r' H. in_list H.
  - unfold handle_request_settled. destruct (reqs st !! r) as [rq|] eqn:Hl; [|done].
    destruct (L3 r rq Hl) as [Hls Hpcl].
    destruct (pc rq) as [t|session s|t| |] eqn:Hpc; try done.
    eapply (linked_ext st _ []); try done.
    + simpl. by rewrite app_nil_r.
    + simpl. by rewrite length_insert.
    + eapply linked_reqs_insert; [done| |done|]; [done|].
      split; simpl; [|by destruct ok]. intros l H. by apply Hls.
    + intros s0 session0 H. by left.
    + intros t' g H. in_list H.
    + intros r' l H. in_list H.
    + intros t' r' H. in_list H.
  - unfold res_close. destruct (reqs st !! r) as [rq|]; [|done].
    by apply linked_listeners.
Qed.

Lemma linked_run (sch : list Event) : linked (run sch init).
Proof.
  induction sch as [|ev sch IH] using rev_ind; [apply linked_init|].
  rewrite run_snoc. apply linked_step; [apply wf_run|done].
Qed.

(** ** Deleting a list of ids *)

Lemma delete_ids_lookup_notin (ids : list string) (m : gmap string SessionRecord)
    (s : string) :
  s ∉ ids → foldl (λ m k, delete k m) m ids !! s = m !! s.
Proof.
  revert m. induction ids as [|k ids IH]; intros m Hs; [done|].
  apply not_elem_of_cons in Hs as [Hne Hs]. simpl.
  rewrite IH by done. by apply lookup_delete_ne.
Qed.

Lemma delete_ids_lookup_in (ids : list string) (m : gmap string SessionRecord)
    (s : string) :
  s ∈ ids → foldl (λ m k, delete k m) m ids !! s = None.
Proof.
  revert m. induction ids as [|k ids IH]; intros m Hs; [by apply elem_of_nil in Hs|].
  simpl. destruct (decide (s ∈ ids)) as [Hin|Hnotin]; [by apply IH|].
  apply elem_of_cons in Hs as [->|Hs]; [|done].
  rewrite delete_ids_lookup_notin by done. apply lookup_delete_eq.
Qed.

Lemma deleted_ids_elem (ls : list Listener) (s : string) :
  s ∈ deleted_ids ls → ∃ t, CloseAndDelete t s ∈ ls.
Proof.
  unfold deleted_ids. intros H. apply list_elem_of_omap in H as (l & Hl & Hs).
  destruct l as [t|t s']; [done|]. simplify_eq. by exists t.
Qed.

Lemma count_new_pos_in (tr : list Op) (t : TransportId) :
  count (is_new_of t) tr ≠ 0 → ∃ g, NewTransport t g ∈ tr.
Proof.
  induction tr as [|o tr IH]; [done|]. simpl.
  destruct o as [t' g| | | | | |]; simpl;
    try (intros H; destruct (IH H) as [g' Hg]; exists g'; by right).
  case_bool_decide as Ht.
  - intros _. subst. exists g. by left.
  - intros H. destruct (IH H) as [g' Hg]. exists g'. by right.
Qed.

(** ** Invariants of every reachable state *)

(** X1: [server.connect] is called exactly once on every transport the handler
    has created, in whichever branch, and on nothing else; and no transport
    is created twice. *)
Theorem every_transport_connected_once (sch : list Event) (t : TransportId) :
  let st := run sch init in
  count (is_connect_of t) (trace st) = count (is_new_of t) (trace st)
  ∧ count (is_new_of t) (trace st) ≤ 1
  ∧ (count (is_new_of t) (trace st) = 1 ↔ t < next_transport st)
  ∧ (∀ e, ServerConnect e t ∈ trace st → ∃ g, NewTransport t g ∈ trace st).
Proof.
  intros st. destruct (connected_once_run sch t) as [Hn Hc]. fold st in Hn, Hc.
  split; [done|]. split; [case_bool_decide; lia|].
  split; [case_bool_decide; split; intros; lia|].
  intros e He.
  assert (count (is_new_of t) (trace st) ≠ 0) as Hpos.
  { rewrite <- Hc. intros Hz.
    pose proof (count_zero_not_in _ _ _ Hz He) as Hf. simpl in Hf.
    by rewrite bool_decide_eq_true_2 in Hf. }
  by apply count_new_pos_in.
Qed.

(** X2: an activation of the handler calls [handleRequest] at most once and
    registers at most one [close] listener on its response. *)
Theorem request_driven_at_most_once (sch : list Event) (r : ReqId) :
  let st := run sch init in
  count (is_handle_of r) (trace st) ≤ 1
  ∧ count (is_res_on_of r) (trace st) ≤ 1
  ∧ (∀ i j t t', trace st !! i = Some (HandleRequest t r) →
                 trace st !! j = Some (HandleRequest t' r) → i = j ∧ t = t')
  ∧ (∀ i j l l', trace st !! i = Some (ResOn r l) →
                 trace st !! j = Some (ResOn r l') → i = j ∧ l = l').
Proof.
  intros st. destruct (driven_once_run sch r) as (H1 & H2 & _). fold st in H1, H2.
  split; [done|]. split; [done|]. split.
  - intros i j t t' Hi Hj.
    assert (i = j) as ->.
    { eapply (count_le_one_unique (is_handle_of r)); try done;
        simpl; by apply bool_decide_eq_true. }
    split; [done|congruence].
  - intros i j l l' Hi Hj.
    assert (i = j) as ->.
    { eapply (count_le_one_unique (is_res_on_of r)); try done;
        simpl; by apply bool_decide_eq_true. }
    split; [done|congruence].
Qed.

(** X3: every entry of the registry has a non-empty key and holds a transport
    that was created for exactly that key (its [sessionIdGenerator] returns
    the key); two different keys never hold the same transport. *)
Theorem registered_transport_belongs_to_id (sch : list Event) (s : string)
    (session : SessionRecord) :
  let st := run sch init in
  sessions st !! s = Some session →
  s ≠ ""
  ∧ NewTransport (transport session) (Some s) ∈ trace st
  ∧ transport session < next_transport st
  ∧ (∀ s' session', sessions st !! s' = Some session' →
       transport session' = transport session → s' = s).
Proof.
  intros st Hl. pose proof (linked_run sch) as Hlk. fold st in Hlk.
  destruct (lk_sessions st Hlk s session Hl) as [Hs Hn].
  split; [done|]. split; [done|]. split.
  - by apply (wf_sessions st (wf_run sch) s session).
  - intros s' session' Hl' Heq.
    destruct (lk_sessions st Hlk s' session' Hl') as [_ Hn'].
    rewrite Heq in Hn'. pose proof (lk_new st Hlk _ _ _ Hn Hn'). congruence.
Qed.

Lemma registered_transport_belongs_to_id_witness :
  let st := run [Post (Some "a"); Post None; Post (Some "b")] init in
  NewTransport 2 (Some "b") ∈ trace st
  ∧ (∀ s' session', sessions st !! s' = Some session' →
       transport session' = 2 → s' = "b").
Proof.
  intros st.
  destruct (registered_transport_belongs_to_id
              [Post (Some "a"); Post None; Post (Some "b")] "b" {| transport := 2 |})
    as (_ & H2 & _ & H4).
  - reflexivity.
  - split; [exact H2|exact H4].
Defined.

(** X4: the transport of a request without session id is private to it: it was
    created without session id generator, it is in no registry entry, and
    [handleRequest] is only ever called on it for the request on whose
    response its [close] listener sits. *)
Theorem disposable_transport_is_private (sch : list Event) (r : ReqId) (t : TransportId) :
  let st := run sch init in
  ResOn r (CloseTransport t) ∈ trace st →
  NewTransport t None ∈ trace st
  ∧ (∀ s session, sessions st !! s = Some session → transport session ≠ t)
  ∧ (∀ r', HandleRequest t r' ∈ trace st → r' = r)
  ∧ (∀ r', ResOn r' (CloseTransport t) ∈ trace st → r' = r)
  ∧ (∀ r' s, ResOn r' (CloseAndDelete t s) ∉ trace st).
Proof.
  intros st Hon. pose proof (linked_run sch) as Hlk. fold st in Hlk.
  destruct (lk_res_on st Hlk r _ Hon) as [_ Hc]. simpl in Hc.
  split; [done|]. split; [|split; [|split]].
  - intros s session Hl Heq.
    destruct (lk_sessions st Hlk s session Hl) as [_ Hn]. rewrite Heq in Hn.
    by pose proof (lk_new st Hlk _ _ _ Hc Hn).
  - intros r' Hh. by eapply (lk_handle st Hlk).
  - intros r' Hr'. by eapply (lk_owner st Hlk).
  - intros r' s Hr'. destruct (lk_res_on st Hlk r' _ Hr') as [_ Hc']. simpl in Hc'.
    by pose proof (lk_new st Hlk _ _ _ Hc Hc').
Qed.

Lemma disposable_transport_is_private_witness :
  let st := run [Post None; Post (Some "a"); ConnectSettled 0 true;
                 Post (Some "a"); Post None; ConnectSettled 3 true] init in
  NewTransport 0 None ∈ trace st
  ∧ (∀ r', HandleRequest 0 r' ∈ trace st → r' = 0).
Proof.
  intros st.
  destruct (disposable_transport_is_private
              [Post None; Post (Some "a"); ConnectSettled 0 true;
               Post (Some "a"); Post None; ConnectSettled 3 true] 0 0)
    as (H1 & _ & H3 & _).
  - vm_compute. apply list_elem_of_further, list_elem_of_here.
  - split; [exact H1|exact H3].
Defined.

(** X5: a [close] event takes out of the registry at most the one session id
    whose creation branch ran in that same activation; every other id keeps
    its entry, and no transport is created or driven by the event. *)
Theorem close_removes_only_own_session (sch : list Event) (r : ReqId) (s s2 : string) :
  let st := run sch init in
  let st' := step st (ResClose r) in
  sessions st' !! s ≠ sessions st !! s →
  sessions st' !! s = None
  ∧ (∃ t, ResOn r (CloseAndDelete t s) ∈ trace st
          ∧ NewTransport t (Some s) ∈ trace st)
  ∧ (sessions st' !! s2 ≠ sessions st !! s2 → s2 = s)
  ∧ next_transport st' = next_transport st
  ∧ reqs st' = reqs st.
Proof.
  intros st st' Hchg. pose proof (linked_run sch) as Hlk. fold st in Hlk.
  subst st'. simpl in *. unfold res_close in *.
  destruct (reqs st !! r) as [rq|] eqn:Hl; [|done].
  rewrite run_listeners_sessions in *.
  assert (∀ k, foldl (λ m k, delete k m) (sessions st) (deleted_ids (on_close rq)) !! k
               ≠ sessions st !! k →
            foldl (λ m k, delete k m) (sessions st) (deleted_ids (on_close rq)) !! k
              = None
            ∧ ∃ t, ResOn r (CloseAndDelete t k) ∈ trace st
                   ∧ NewTransport t (Some k) ∈ trace st) as Hown.
  { intros k Hk. destruct (decide (k ∈ deleted_ids (on_close rq))) as [Hin|Hnotin].
    - split; [by apply delete_ids_lookup_in|].
      apply deleted_ids_elem in Hin as [t Ht]. exists t.
      destruct (lk_reqs st Hlk r rq Hl) as [Hls _].
      pose proof (Hls _ Ht) as Hon. split; [done|].
      by destruct (lk_res_on st Hlk r _ Hon) as [_ Hc].
    - by rewrite delete_ids_lookup_notin in Hk. }
  destruct (Hown s Hchg) as [Hnone (t & Hon & Hnew)].
  split; [done|]. split; [by exists t|]. split.
  - intros Hchg2. destruct (Hown s2 Hchg2) as [_ (t2 & Hon2 & _)].
    destruct (driven_once_run sch r) as (_ & Hone & _). fold st in Hone.
    apply list_elem_of_lookup in Hon as [i Hi].
    apply list_elem_of_lookup in Hon2 as [j Hj].
    assert (i = j) as ->.
    { eapply (count_le_one_unique (is_res_on_of r)); try done;
        simpl; by apply bool_decide_eq_true. }
    congruence.
  - split; [apply run_listeners_next_transport|apply run_listeners_reqs].
Qed.

Lemma close_removes_only_own_session_witness :
  let st := run [Post (Some "a"); ConnectSettled 0 true; Post (Some "b");
                 ConnectSettled 1 true] init in
  sessions (step st (ResClose 1)) !! "b" = None
  ∧ (sessions (step st (ResClose 1)) !! "a" ≠ sessions st !! "a" → "a" = "b").
Proof.
  intros st.
  destruct (close_removes_only_own_session
              [Post (Some "a"); ConnectSettled 0 true; Post (Some "b");
               ConnectSettled 1 true] 1 "b" "a")
    as (H1 & _ & H3 & _).
  - vm_compute. discriminate.
  - split; [exact H1|exact H3].
Defined.

(** ** A [close] event that comes while [server.connect] is pending *)

(** X6: in the creation branch the listener is registered only after
    [await server.connect]: a [close] event of the response that fires
    while the connect is pending, whatever else runs before and after it,
    runs no listener and changes nothing, and the registration that follows
    comes too late for it.  As long as no further [close] event arrives the
    session stays registered and its transport is never closed.  In the
    stateless branch the listener is already there: the same event closes
    the transport, and when the connect resolves the handler still calls
    [handleRequest] on it. *)
Theorem close_during_connect_is_lost (st : State) (s : string) (q : option string)
    (sch1 sch2 sch3 : list Event) :
  s ≠ "" → sessions st !! s = None → js_not q = true →
  forallb (quiet_for (length (reqs st))) sch1 = true →
  forallb (quiet_for (length (reqs st))) sch2 = true →
  forallb (λ ev, negb (is_res_close ev)) sch3 = true →
  let r := length (reqs st) in
  let t := next_transport st in
  let sta := run sch1 (step st (Post (Some s))) in
  let st0 := run sch2 (step sta (ResClose r)) in
  let stb := step st0 (ConnectSettled r true) in
  let st2 := run sch3 stb in
  let sta' := run sch1 (step st (Post q)) in
  let st0' := run sch2 (step sta' (ResClose r)) in
  step sta (ResClose r) = sta
  ∧ trace stb = trace st0 ++ [ResOn r (CloseAndDelete t s); HandleRequest t r]
  ∧ reqs stb !! r =
      Some {| pc := AwaitHandleRequest t; on_close := [CloseAndDelete t s] |}
  ∧ sessions st2 !! s = Some {| transport := t |}
  ∧ close_calls t (trace st2) = close_calls t (trace st)
  ∧ trace (step sta' (ResClose r)) = trace sta' ++ [TransportClose t]
  ∧ close_calls t (trace st0') = S (close_calls t (trace st))
  ∧ trace (step st0' (ConnectSettled r true)) = trace st0' ++ [HandleRequest t r].
Proof.
  intros Hs Hnone Hq Hsch1 Hsch2 Hsch3 r t sta st0 stb st2 sta' st0'.
  destruct (quiet_for_split _ _ Hsch1) as [Hnc1 Hns1].
  destruct (quiet_for_split _ _ Hsch2) as [Hnc2 Hns2].
  destruct (post_create_pending st s Hs Hnone) as (Hp & _ & Hlp).
  fold r t in Hp, Hlp.
  assert (reqs sta !! r =
            Some {| pc := AwaitConnectStateful {| transport := t |} s;
                    on_close := [] |}) as Ha
    by (by apply pending_kept_run).
  assert (step sta (ResClose r) = sta) as Hnoop.
  { exact (res_close_lookup sta r _ Ha). }
  assert (reqs st0 !! r =
            Some {| pc := AwaitConnectStateful {| transport := t |} s;
                    on_close := [] |}) as H0.
  { subst st0. rewrite Hnoop. by apply pending_kept_run. }
  assert (r < length (reqs st0)) as Hlt by (by eapply lookup_lt_Some).
  assert (stb = set_req r {| pc := AwaitHandleRequest t;
                             on_close := [CloseAndDelete t s] |}
                  (emit [ResOn r (CloseAndDelete t s); HandleRequest t r] st0))
    as Hb by exact (connect_resolved_stateful st0 r t s H0).
  assert (close_calls t (trace st0) = close_calls t (trace st)) as Hc0.
  { subst st0. rewrite Hnoop, close_calls_kept_run by done.
    subst sta. rewrite close_calls_kept_run by done. by rewrite close_calls_kept. }
  assert (reqs sta' !! r =
            Some {| pc := AwaitConnectStateless t;
                    on_close := [CloseTransport t] |}) as Ha'.
  { apply pending_kept_run; [|done|done]. by apply post_stateless_pending. }
  assert (step sta' (ResClose r) = emit [TransportClose t] sta') as Hcl'.
  { exact (res_close_lookup sta' r _ Ha'). }
  assert (reqs st0' !! r =
            Some {| pc := AwaitConnectStateless t;
                    on_close := [CloseTransport t] |}) as H0'.
  { subst st0'. rewrite Hcl'. by apply pending_kept_run. }
  split; [done|]. split; [by rewrite Hb|]. split.
  { rewrite Hb. simpl. by apply list_lookup_insert_eq. }
  split.
  { subst st2. apply entry_kept_run; [done|]. rewrite Hb. simpl.
    subst st0. rewrite Hnoop. apply entry_kept_run; [done|].
    subst sta. by apply entry_kept_run. }
  split.
  { subst st2. rewrite close_calls_kept_run by done. rewrite Hb.
    unfold close_calls in *. simpl. rewrite count_app. simpl. lia. }
  split; [by rewrite Hcl'|]. split.
  { subst st0'. rewrite Hcl', close_calls_kept_run by done.
    unfold close_calls. simpl. rewrite count_app. simpl.
    rewrite bool_decide_eq_true_2 by done.
    fold (close_calls t (trace sta')). subst sta'.
    rewrite close_calls_kept_run by done. rewrite close_calls_kept by done.
    unfold close_calls. lia. }
  by rewrite (connect_resolved_stateless st0' r t H0').
Qed.

Lemma close_during_connect_is_lost_witness :
  let sta := run [Post (Some "abc")] (step init (Post (Some "abc"))) in
  let st0 := run [Post None] (step sta (ResClose 0)) in
  let stb := step st0 (ConnectSettled 0 true) in
  let st2 := run [HandleRequestSettled 0 true; Post (Some "abc")] stb in
  step sta (ResClose 0) = sta
  ∧ trace stb = trace st0 ++ [ResOn 0 (CloseAndDelete 0 "abc"); HandleRequest 0 0]
  ∧ sessions st2 !! "abc" = Some {| transport := 0 |}
  ∧ close_calls 0 (trace st2) = 0.
Proof.
  intros sta st0 stb st2.
  destruct (close_during_connect_is_lost init "abc" None
              [Post (Some "abc")] [Post None]
              [HandleRequestSettled 0 true; Post (Some "abc")])
    as (H1 & H2 & _ & H4 & H5 & _).
  - done.
  - reflexivity.
  - reflexivity.
  - reflexivity.
  - reflexivity.
  - reflexivity.
  - split; [exact H1|]. split; [exact H2|]. split; [exact H4|exact H5].
Defined.

(** ** A rejected connect *)

Lemma undriven_step (st : State) (ev : Event) (r : ReqId) :
  (count (is_handle_of r) (trace st) = 0
   ∧ ∃ rq, reqs st !! r = Some rq ∧ pc rq = Rejected) →
  count (is_handle_of r) (trace (step st ev)) = 0
  ∧ ∃ rq, reqs (step st ev) !! r = Some rq ∧ pc rq = Rejected.
Proof.
  intros (Hc & rq & Hl & Hpc).
  assert (r < length (reqs st)) as Hlt by (by eapply lookup_lt_Some).
  destruct ev as [q|r' ok|r' ok|r']; simpl.
  - post_cases q st; simpl; rewrite count_app, Hc; simpl;
      (split; [|exists rq; split; [by apply lookup_app_l_Some|done]]);
      try done.
    rewrite bool_decide_eq_false_2 by lia. done.
  - unfold connect_settled. destruct (reqs st !! r') as [rq'|] eqn:Hl'; [|by eauto].
    destruct (decide (r' = r)) as [->|Hne].
    + assert (rq' = rq) as -> by congruence. rewrite Hpc. by eauto.
    + destruct (pc rq'); try (by eauto); destruct ok; simpl;
        rewrite ?count_app, ?Hc; simpl;
        rewrite ?bool_decide_eq_false_2 by done;
        (split; [done|]); exists rq;
        (split; [by rewrite list_lookup_insert_ne|done]).
  - unfold handle_request_settled.
    destruct (reqs st !! r') as [rq'|] eqn:Hl'; [|by eauto].
    destruct (decide (r' = r)) as [->|Hne].
    + assert (rq' = rq) as -> by congruence. rewrite Hpc. by eauto.
    + destruct (pc rq'); try (by eauto). simpl.
      split; [done|]. exists rq. by rewrite list_lookup_insert_ne.
  - unfold res_close. destruct (reqs st !! r') as [rq'|]; [|by eauto].
    rewrite run_listeners_count by (by intros []).
    rewrite run_listeners_reqs. by eauto.
Qed.

(** X7: when [server.connect] rejects, in either branch, the handler never
    calls [handleRequest] for that request, whatever happens afterwards. *)
Theorem rejected_connect_never_driven (sch0 sch : list Event) (r : ReqId) (rq : Req) :
  let st := run sch0 init in
  reqs st !! r = Some rq → awaits_connect rq = true →
  let st' := run (ConnectSettled r false :: sch) st in
  count (is_handle_of r) (trace st') = 0
  ∧ (∀ t, HandleRequest t r ∉ trace st')
  ∧ ∃ rq', reqs st' !! r = Some rq' ∧ pc rq' = Rejected.
Proof.
  intros st Hl Haw st'.
  assert (r < length (reqs st)) as Hlt by (by eapply lookup_lt_Some).
  assert (count (is_handle_of r) (trace st') = 0
          ∧ ∃ rq', reqs st' !! r = Some rq' ∧ pc rq' = Rejected) as [Hc Hr].
  { subst st'. simpl. apply run_ind; [|intros st0 ev; apply undriven_step].
    destruct (driven_once_run sch0 r) as (_ & _ & Hd). fold st in Hd.
    rewrite Hl in Hd. unfold connect_settled. rewrite Hl.
    unfold awaits_connect in Haw.
    destruct (pc rq) eqn:Hpc; try done; simpl;
      (split; [by intuition|]); eexists;
      (split; [by apply list_lookup_insert_eq|done]). }
  split; [done|]. split; [|done].
  intros t Hin. pose proof (count_zero_not_in _ _ _ Hc Hin) as Hf.
  simpl in Hf. by rewrite bool_decide_eq_true_2 in Hf.
Qed.

Lemma rejected_connect_never_driven_witness :
  let st := run [Post None; Post (Some "abc")] init in
  let st' := run [ConnectSettled 1 false; ConnectSettled 1 true; Post (Some "abc");
                  ResClose 1] st in
  count (is_handle_of 1) (trace st') = 0.
Proof.
  intros st st'.
  destruct (rejected_connect_never_driven [Post None; Post (Some "abc")]
              [ConnectSettled 1 true; Post (Some "abc"); ResClose 1] 1
              {| pc := AwaitConnectStateful {| transport := 1 |} "abc";
                 on_close := [] |})
    as (H1 & _).
  - reflexivity.
  - reflexivity.
  - exact H1.
Defined.

(** * The other functions of the server module *)

(** ** [trim] *)

Lemma trim_end_app_keep (a b : string) :
  trim_end b ≠ "" →
  trim_end (a +:+ b) = a +:+ trim_end b ∧ trim_end (a +:+ b) ≠ "".
Proof.
  intros Hb. induction a as [|c a [IH1 IH2]]; [done|].
  change (String c a +:+ b) with (String c (a +:+ b)).
  change (String c a +:+ trim_end b) with (String c (a +:+ trim_end b)).
  cbn [trim_end]. rewrite IH1 in IH2 |- *.
  destruct (a +:+ trim_end b) eqn:Heq; [done|]. split; [done|]. discriminate.
Qed.

Lemma trim_end_app_eq (a b : string) :
  trim_end b ≠ "" → trim_end (a +:+ b) = a +:+ trim_end b.
Proof. intros H. by apply trim_end_app_keep. Qed.

Lemma trim_end_app_ne (a b : string) :
  trim_end b ≠ "" → trim_end (a +:+ b) ≠ "".
Proof. intros H. by apply trim_end_app_keep. Qed.

Lemma trim_start_template (rest : string) :
  trim_start (newline +:+ "<div id=" +:+ rest) = "<div id=" +:+ rest.
Proof. reflexivity. Qed.

Lemma trim_end_template : trim_end ("</script>" +:+ newline) = "</script>".
Proof. reflexivity. Qed.

Lemma widgetHtml_eq (rootId js : string) (css : option string) :
  widgetHtml rootId js css =
    "<div id=" +:+ dquote +:+ rootId +:+ dquote +:+ "></div>" +:+ newline
    +:+ (if js_not css then "" else "<style>" +:+ default "" css +:+ "</style>")
    +:+ newline
    +:+ "<script type=" +:+ dquote +:+ "module" +:+ dquote +:+ ">" +:+ js
    +:+ "</script>".
Proof.
  unfold widgetHtml, trim. rewrite trim_start_template.
  assert (trim_end ("</script>" +:+ newline) ≠ "") as Hne by done.
  rewrite !trim_end_app_eq by (repeat first [exact Hne | apply trim_end_app_ne]).
  by rewrite trim_end_template.
Qed.

(** X9: [widgetHtml] is its template without the first and the last line
    break: [trim] stops at the "<" and the ">" of the template itself and
    so never removes white space that belongs to [rootId], [js] or [css].
    When [css] is missing or empty there is no style element, only the
    empty line where it would be. *)
Theorem widgetHtml_is_template_without_outer_newlines (rootId js : string)
    (css : option string) :
  widgetHtml rootId js css =
    "<div id=" +:+ dquote +:+ rootId +:+ dquote +:+ "></div>" +:+ newline
    +:+ (if js_not css then "" else "<style>" +:+ default "" css +:+ "</style>")
    +:+ newline
    +:+ "<script type=" +:+ dquote +:+ "module" +:+ dquote +:+ ">" +:+ js
    +:+ "</script>"
  ∧ widgetHtml rootId js None = widgetHtml rootId js (Some "")
  ∧ widgetHtml rootId js None =
      "<div id=" +:+ dquote +:+ rootId +:+ dquote +:+ "></div>" +:+ newline
      +:+ newline
      +:+ "<script type=" +:+ dquote +:+ "module" +:+ dquote +:+ ">" +:+ js
      +:+ "</script>".
Proof.
  split; [apply widgetHtml_eq|]. split; by rewrite !widgetHtml_eq.
Qed.

(** ** Assets *)

Lemma loadAssetText_unreadable (path_join : string → string → string)
    (ASSETS_PATH : string) (readFileSync : string → option string)
    (fileName : option string) :
  (∀ n, fileName = Some n → readFileSync (path_join ASSETS_PATH n) = None) →
  loadAssetText path_join ASSETS_PATH readFileSync fileName = "".
Proof.
  intros H. unfold loadAssetText. destruct (js_not fileName) eqn:Hq; [done|].
  apply js_not_false in Hq as (n & -> & Hn). simpl. by rewrite (H n).
Qed.

Lemma js_or_nonempty (a : option string) (b : string) : b ≠ "" → js_or a b ≠ "".
Proof.
  intros Hb. unfold js_or. destruct (js_not a) eqn:Ha; [done|].
  by apply js_not_false in Ha as (s & -> & Hs).
Qed.



(** ** The "update_idea" tool *)

(** X11: in the "update_idea" handler the [changes] reported to the user name
    exactly the fields put into the request body, in the same order, with
    the [archived] field reported as "archived" or "restored"; no field is
    named twice.  When no optional argument is given the body is the empty
    object (the PUT is still made) and the text has no list of changes. *)
Theorem update_idea_changes_match_body {Number : Type} (a : UpdateIdeaArgs Number) :
  (updateData a).*1 = change_field <$> changes a
  ∧ length (changes a) = length (updateData a)
  ∧ NoDup (changes a)
  ∧ (changes a = [] ↔
       title a = None ∧ description a = None ∧ urgency a = None
       ∧ archived a = None ∧ notes a = None)
  ∧ (changes a = [] →
       updateData a = []
       ∧ ∀ idea_title, update_idea_text a idea_title = "Updated **" +:+ idea_title +:+ "**").
Proof.
  split; [|split; [|split; [|split]]].
  - by destruct a as [id [t|] [d|] [u|] [[|]|] [n|]].
  - by destruct a as [id [t|] [d|] [u|] [[|]|] [n|]].
  - destruct a as [id [t|] [d|] [u|] [[|]|] [n|]];
      apply (bool_decide_unpack _); by vm_compute.
  - destruct a as [id [t|] [d|] [u|] [[|]|] [n|]]; cbn;
      (split; [intros H; try discriminate H; done
              |intros (H1 & H2 & H3 & H4 & H5); try discriminate; done]).
  - destruct a as [id [t|] [d|] [u|] [[|]|] [n|]]; cbn;
      intros H; try discriminate H.
    split; [done|]. intros idea_title. unfold update_idea_text. cbn.
    reflexivity.
Qed.

(** ** [makeApiRequest] *)

(** X12: in the object [makeApiRequest] gives to [fetch], the spread of
    [options] comes after the [headers] property, so a [headers] property of
    the caller replaces the merged headers as a whole: the default
    "Content-Type: application/json" is sent exactly when the caller passes
    no [headers] property (as every caller in this module does) or when its
    own headers carry that value; the other headers of the caller, and
    [method] and [body], pass through unchanged. *)
Theorem caller_headers_replace_default (o : RequestInit) (name : string) :
  header_of (fetch_init None) "Content-Type" = Some "application/json"
  ∧ header_of (fetch_init (Some o)) "Content-Type" =
      match headers o with
      | Absent => Some "application/json"
      | Present (Some h) => h !! "Content-Type"
      | Present None => None
      end
  ∧ (headers o ≠ Absent → headers (fetch_init (Some o)) = headers o)
  ∧ (name ≠ "Content-Type" →
       header_of (fetch_init (Some o)) name = header_of o name)
  ∧ method (fetch_init (Some o)) = method o
  ∧ body (fetch_init (Some o)) = body o.
Proof.
  destruct o as [m b h]. unfold header_of, fetch_init. cbn.
  split; [by rewrite lookup_singleton_eq|]. split; [|split; [|split; [|split]]].
  - destruct h as [|[h|]]; cbn; [by rewrite lookup_singleton_eq|done|done].
  - by destruct h.
  - intros Hne. destruct h as [|[h|]]; cbn; [|done|done].
    by rewrite lookup_singleton_ne.
  - by destruct m.
  - by destruct b.
Qed.

(** ** Resources *)

Lemma makeApiRequest_inr {J : Type} (out : FetchOutcome J) (v : J) :
  makeApiRequest out = inr v ↔
  ∃ response, out = FetchResolves response ∧ ok response = true
              ∧ json response = inr v.
Proof.
  split.
  - destruct out as [e|response]; simpl; [done|].
    destruct (ok response) eqn:Hok; simpl; [|done]. intros H. by exists response.
  - intros (response & -> & Hok & Hjson). simpl. by rewrite Hok.
Qed.

(** X13: the "api-status" resource never fails: whatever [fetch] does (rejects,
    answers with a failure status, answers with a body that is not JSON) it
    returns exactly one content item under "rememberbook://status".  On a
    failure status the item reports "API request failed: <status>
    <statusText>" as its details.  The "ideas" resource has no such catch:
    it fails exactly when the request does, and succeeds exactly for a
    response with [ok] set whose body parses. *)
Theorem api_status_never_fails {Number : Type} (stringify : Json Number → string)
    (api_base : string) (out : FetchOutcome (Json Number)) :
  (∃ c, api_status_resource stringify api_base out = inr [c]
        ∧ uri c = "rememberbook://status" ∧ mimeType c = "application/json")
  ∧ (∀ response, out = FetchResolves response → ok response = false →
       api_status_resource stringify api_base out =
         inr [{| text :=
                   stringify
                     (JObject
                        [("error", JString "Failed to connect to RememberBook API");
                         ("details",
                          JString ("API request failed: " +:+ pretty (status response)
                                   +:+ " " +:+ statusText response));
                         ("api_url", JString api_base)]);
                 uri := "rememberbook://status";
                 mimeType := "application/json" |}])
  ∧ (∀ e, ideas_resource stringify out = inl e ↔ makeApiRequest out = inl e)
  ∧ (∀ cs, ideas_resource stringify out = inr cs ↔
       ∃ response ideas, out = FetchResolves response ∧ ok response = true
         ∧ json response = inr ideas
         ∧ cs = [{| text := stringify ideas; uri := "rememberbook://ideas";
                    mimeType := "application/json" |}]).
Proof.
  split; [|split; [|split]].
  - unfold api_status_resource. destruct (makeApiRequest out); by eexists.
  - intros response -> Hok. unfold api_status_resource. simpl. by rewrite Hok.
  - intros e. unfold ideas_resource. destruct (makeApiRequest out); split;
      intros H; by simplify_eq.
  - intros cs. unfold ideas_resource.
    destruct (makeApiRequest out) as [e|ideas] eqn:Hm; split.
    + done.
    + intros (response & ideas & -> & Hok & Hjson & _). simpl in Hm.
      rewrite Hok, Hjson in Hm. done.
    + intros H. simplify_eq. apply makeApiRequest_inr in Hm as (response & ? & ? & ?).
      by exists response, ideas.
    + intros (response & ideas' & -> & Hok & Hjson & ->). simpl in Hm.
      rewrite Hok in Hm. simpl in Hm. rewrite Hjson in Hm.
      injection Hm as ->. done.
Qed.

(** ** Whose connection ends a session *)

(** X8: a request that finds its session in the registry registers no
    [close] listener: the [close] event of its response changes nothing, at
    any later time.  The session lives and dies with the response of the
    request that created it, whatever ran while its connect was pending and
    afterwards: when that response closes, the transport is closed and the
    entry removed, even though the other request is still being driven on
    that transport. *)
Theorem session_ends_with_creators_response (st : State) (s : string)
    (sch1 sch2 sch3 : list Event) :
  s ≠ "" → sessions st !! s = None →
  forallb (quiet_for (length (reqs st))) sch1 = true →
  forallb (λ ev, negb (is_res_close ev)) sch2 = true →
  let r := length (reqs st) in
  let t := next_transport st in
  let st0 := run sch1 (step st (Post (Some s))) in
  let stb := step st0 (ConnectSettled r true) in
  let stc := run sch2 stb in
  let r' := length (reqs stc) in
  let std := step stc (Post (Some s)) in
  let ste := run sch3 std in
  let stf := step ste (ResClose r) in
  trace stb = trace st0 ++ [ResOn r (CloseAndDelete t s); HandleRequest t r]
  ∧ trace std = trace stc ++ [HandleRequest t r']
  ∧ reqs std !! r' = Some {| pc := AwaitHandleRequest t; on_close := [] |}
  ∧ step ste (ResClose r') = ste
  ∧ trace stf = trace ste ++
      [TransportClose t; SessionsDelete s (bool_decide (is_Some (sessions ste !! s)))]
  ∧ sessions stf !! s = None
  ∧ (forallb (λ ev, negb (settles r' ev)) sch3 = true →
       reqs stf !! r' = Some {| pc := AwaitHandleRequest t; on_close := [] |})
  ∧ trace (step std (ResClose r)) =
      trace std ++ [TransportClose t; SessionsDelete s true]
  ∧ reqs (step std (ResClose r)) !! r' =
      Some {| pc := AwaitHandleRequest t; on_close := [] |}.
Proof.
  intros Hs Hnone Hsch1 Hsch2 r t st0 stb stc r' std ste stf.
  destruct (quiet_for_split _ _ Hsch1) as [Hnc1 Hns1].
  destruct (post_create_pending st s Hs Hnone) as (Hp & _ & Hlp).
  fold r t in Hp, Hlp.
  assert (reqs st0 !! r =
            Some {| pc := AwaitConnectStateful {| transport := t |} s;
                    on_close := [] |}) as H0
    by (by apply pending_kept_run).
  assert (r < length (reqs st0)) as Hlt by (by eapply lookup_lt_Some).
  assert (stb = set_req r {| pc := AwaitHandleRequest t;
                             on_close := [CloseAndDelete t s] |}
                  (emit [ResOn r (CloseAndDelete t s); HandleRequest t r] st0))
    as Hb by exact (connect_resolved_stateful st0 r t s H0).
  assert (listeners_fixed r [CloseAndDelete t s] stb) as Hfixb.
  { eexists. split; [rewrite Hb; simpl; by apply list_lookup_insert_eq|done]. }
  assert (sessions stc !! s = Some {| transport := t |}) as Hlc.
  { subst stc. apply entry_kept_run; [done|]. rewrite Hb. simpl.
    subst st0. by apply entry_kept_run. }
  assert (std = post (Some s) stc) as Hd by done.
  rewrite (post_reuse s {| transport := t |}) in Hd by done.
  assert (reqs std !! r' = Some {| pc := AwaitHandleRequest t; on_close := [] |})
    as Hrd.
  { rewrite Hd. simpl. by rewrite lookup_app_r, Nat.sub_diag. }
  assert (listeners_fixed r' [] std) as Hfixd by (by eexists).
  assert (listeners_fixed r [CloseAndDelete t s] std) as Hfixrd.
  { apply listeners_fixed_step. by apply listeners_fixed_run. }
  assert (listeners_fixed r [CloseAndDelete t s] ste) as Hfixre
    by (by apply listeners_fixed_run).
  assert (stf = foldl run_listener ste [CloseAndDelete t s]) as Hf
    by exact (res_close_fixed r _ ste Hfixre).
  rewrite close_and_delete in Hf.
  assert (step std (ResClose r) = foldl run_listener std [CloseAndDelete t s])
    as Hfd by exact (res_close_fixed r _ std Hfixrd).
  rewrite close_and_delete in Hfd.
  assert (sessions std !! s = Some {| transport := t |}) as Hld by (by rewrite Hd).
  split; [by rewrite Hb|]. split; [by rewrite Hd|]. split; [done|]. split.
  { exact (res_close_fixed r' [] ste (listeners_fixed_run _ _ sch3 std Hfixd)). }
  split; [by rewrite Hf|]. split.
  { rewrite Hf. simpl. apply lookup_delete_eq. }
  split.
  { intros Hsch3. rewrite Hf. simpl. by apply req_untouched_run. }
  split.
  { rewrite Hfd, Hld. simpl. done. }
  by rewrite Hfd.
Qed.

Lemma session_ends_with_creators_response_witness :
  let st0 := run [Post None] (step init (Post (Some "abc"))) in
  let stb := step st0 (ConnectSettled 0 true) in
  let stc := run [ConnectSettled 1 true] stb in
  let std := step stc (Post (Some "abc")) in
  let ste := run [HandleRequestSettled 2 true] std in
  trace stb = trace st0 ++ [ResOn 0 (CloseAndDelete 0 "abc"); HandleRequest 0 0]
  ∧ step ste (ResClose 2) = ste
  ∧ sessions (step ste (ResClose 0)) !! "abc" = None.
Proof.
  intros st0 stb stc std ste.
  destruct (session_ends_with_creators_response init "abc"
              [Post None] [ConnectSettled 1 true] [HandleRequestSettled 2 true])
    as (H1 & _ & _ & H4 & _ & H6 & _).
  - done.
  - reflexivity.
  - reflexivity.
  - reflexivity.
  - split; [exact H1|]. split; [exact H4|exact H6].
Defined.
